(** * generative-nf: the tree builder of [gnf/builder.py]

    A shallow embedding of the relation parser, the node registry, the
    two-pass tree builder and the level-order traversal, together with the
    properties of the specification that concern them.

    Python objects live in an explicit heap: a node is addressed by its
    index in a list of node records, the registry [nodes] is a finite map
    from names to addresses, and every mutation of the source ([node.parent
    = ...], [setattr], [nodes[k] = ...]) is an update of that state. *)

From Stdlib Require Import Ascii.
From Stdlib Require String.
From stdpp Require Import gmap strings list fin_maps.


(** ** Python string primitives used by the source *)

Module PyStr.

(** [x.replace(' ', '')]: every space character is dropped, nothing else. *)
Fixpoint remove_spaces (x : string) : string :=
  match x with
  | EmptyString => EmptyString
  | String c x' =>
      if Ascii.eqb c " "%char then remove_spaces x'
      else String c (remove_spaces x')
  end.

(** [sub in x]: [sub] occurs in [x] as a contiguous substring. *)
Fixpoint contains (sub x : string) : bool :=
  String.prefix sub x ||
  match x with
  | EmptyString => false
  | String _ x' => contains sub x'
  end.

(** [x.split(sep)] for a non-empty separator: the leftmost occurrences of
    [sep], not overlapping, cut [x] into segments.  [skip] counts the
    characters of a separator just matched that are still to be passed
    over. *)
Fixpoint split_from (sep : string) (skip : nat) (x : string) : list string :=
  match x with
  | EmptyString => [EmptyString]
  | String c x' =>
      match skip with
      | S k => split_from sep k x'
      | O =>
          if String.prefix sep x
          then EmptyString :: split_from sep (String.length sep - 1) x'
          else match split_from sep 0 x' with
               | seg :: segs => String c seg :: segs
               | [] => [String c EmptyString]
               end
      end
  end.

Definition split (sep x : string) : list string := split_from sep 0 x.

End PyStr.

(** ** Outcomes of a Python computation *)

(** The exceptions the builder can raise. *)
Inductive exn : Type :=
  | IndexError
  | KeyError
  | ValueError (msg : string)
  | LoopError.

(** A computation returns, raises, or is [Stuck]: the last outcome stands
    for what no Python run can show (a reference to an object that was never
    allocated, a walk over parent links that never ends); it is proved
    unreachable for the builder below. *)
Inductive result (A : Type) : Type :=
  | Ok (a : A)
  | Raise (e : exn)
  | Stuck.
Arguments Ok {A} a.
Arguments Raise {A} e.
Arguments Stuck {A}.

Global Instance result_ret : MRet result := fun _ a => Ok a.
Global Instance result_bind : MBind result := fun _ _ k m =>
  match m with
  | Ok a => k a
  | Raise e => Raise e
  | Stuck => Stuck
  end.

Definition raised {A : Type} (m : result A) : Prop := exists e, m = Raise e.

(** ** Data processing functions *)

(** [strip_process], builder.py lines 8-10. *)
Definition strip_process (x : string) : string := PyStr.remove_spaces x.

(** [split_process], builder.py lines 12-14: [s[0], s[1]] of the split;
    [s[1]] raises IndexError when the split has a single segment. *)
Definition split_process (x : string) : result (string * string) :=
  match PyStr.split "->" x with
  | s0 :: s1 :: _ => Ok (s0, s1)
  | _ => Raise IndexError
  end.

(** The relation parser as the builder uses it (lines 71 and 87). *)
Definition parse_relation (x : string) : result (string * string) :=
  split_process (strip_process x).

(** [split_params], builder.py lines 16-19.  Each segment between bars is
    split on the equals sign; [i[0]] always exists, [i[1]] raises IndexError
    when the segment holds no equals sign; later keys overwrite earlier
    ones. *)
Definition param_pair (seg : string) : result (string * string) :=
  match PyStr.split "=" seg with
  | i0 :: i1 :: _ => Ok (PyStr.remove_spaces i0, PyStr.remove_spaces i1)
  | _ => Raise IndexError
  end.

Fixpoint params_dict (segs : list string) (d : gmap string string)
  : result (gmap string string) :=
  match segs with
  | [] => Ok d
  | seg :: segs' =>
      '(k, v) ← param_pair seg;
      params_dict segs' (<[k := v]> d)
  end.

Definition split_params (x : string) : result (gmap string string) :=
  params_dict (PyStr.split "|" x) ∅.

(** ** Rows, nodes and the object store *)

(** One record of the input table, with the four columns that [read_data]
    guarantees. *)
Record row : Type := Row {
  process : string;
  row_label : string;
  row_module : string;
  row_params : string }.

(** Objects are addressed by their index in the store. *)
Abbreviation addr := nat.

(** A [Generative_Node]: the name and the parent and children links that the
    tree library keeps, and the four attributes that [set_node] attaches in
    the second pass ([None] while the attribute does not exist). *)
Record node : Type := Node {
  name : string;
  parent : option addr;
  children : list addr;
  label : option string;
  module : option string;
  params : option string;
  kwargs : option (gmap string string) }.

Definition with_parent (n : node) (p : option addr) : node :=
  {| name := name n; parent := p; children := children n;
     label := label n; module := module n; params := params n;
     kwargs := kwargs n |}.

Definition with_children (n : node) (cs : list addr) : node :=
  {| name := name n; parent := parent n; children := cs;
     label := label n; module := module n; params := params n;
     kwargs := kwargs n |}.

(** The builder state: the dictionary [nodes] and the objects it refers to. *)
Record state : Type := State {
  nodes : gmap string addr;
  heap : list node }.

Definition initial : state := {| nodes := ∅; heap := [] |}.

(** Dereference an object. *)
Definition get (h : list node) (a : addr) : result node :=
  match h !! a with
  | Some n => Ok n
  | None => Stuck
  end.

(** ** The tree library: parent assignment *)

(** [any(child is self for child in node.iter_path_reverse())]: walk from
    [a] up the parent links and stop at the first node that is [self]. *)
Fixpoint on_path_reverse (fuel : nat) (h : list node) (self a : addr)
  : result bool :=
  match fuel with
  | O => Stuck
  | S f =>
      if decide (a = self) then Ok true
      else
        n ← get h a;
        match parent n with
        | None => Ok false
        | Some p => on_path_reverse f h self p
        end
  end.

(** Remove [c] from the children of its current parent and clear its parent
    link. *)
Definition detach (h : list node) (c : addr) (old : option addr)
  : result (list node) :=
  match old with
  | None => Ok h
  | Some op =>
      nop ← get h op;
      let h1 :=
        <[op := with_children nop (filter (λ x, x ≠ c) (children nop))]> h in
      nc ← get h1 c;
      Ok (<[c := with_parent nc None]> h1)
  end.

(** Append [c] to the children of [p] and set its parent link. *)
Definition attach (h : list node) (c p : addr) : result (list node) :=
  np ← get h p;
  let h1 := <[p := with_children np (children np ++ [c])]> h in
  nc ← get h1 c;
  Ok (<[c := with_parent nc (Some p)]> h1).

(** [c.parent = p]: nothing happens when [p] is the parent already; a node
    cannot become its own parent nor the child of one of its descendants
    (LoopError); otherwise [c] is detached and attached under [p]. *)
Definition set_parent (h : list node) (c p : addr) : result (list node) :=
  nc ← get h c;
  if decide (parent nc = Some p) then Ok h
  else if decide (p = c) then Raise LoopError
  else
    b ← on_path_reverse (length h) h c p;
    if b : bool then Raise LoopError
    else
      h1 ← detach h c (parent nc);
      attach h1 c p.

(** ** Tree building functions *)

(** [new_node], lines 44-46: a fresh object with a name and nothing else. *)
Definition bare (nm : string) : node :=
  {| name := nm; parent := None; children := [];
     label := None; module := None; params := None; kwargs := None |}.

Definition new_node (nm : string) (h : list node) : list node * addr :=
  (h ++ [bare nm], length h).

(** [set_node], lines 48-51, at its only call: the attributes [label],
    [module], [params] and [kwargs] are overwritten. *)
Definition set_node (n : node) (l m p : string) (kw : gmap string string)
  : node :=
  {| name := name n; parent := parent n; children := children n;
     label := Some l; module := Some m; params := Some p;
     kwargs := Some kw |}.

(** [get_node], lines 53-59: get or create. *)
Definition get_node (st : state) (nm : string) : state * addr :=
  match nodes st !! nm with
  | Some a => (st, a)
  | None =>
      let '(h, a) := new_node nm (heap st) in
      ({| nodes := <[nm := a]> (nodes st); heap := h |}, a)
  end.

(** The body of the first loop of [build_tree], lines 65-78. *)
Definition structure_row (st : state) (r : row) : result state :=
  let x := process r in
  if bool_decide (x = "") || negb (PyStr.contains "->" x) then Ok st
  else
    '(s1, s2) ← split_process (strip_process x);
    if bool_decide (s1 = "") then
      let '(h, a) := new_node s2 (heap st) in
      Ok {| nodes := <[s2 := a]> (nodes st); heap := h |}
    else
      let '(st1, node_p) := get_node st s1 in
      let '(st2, node_c) := get_node st1 s2 in
      h ← set_parent (heap st2) node_c node_p;
      Ok {| nodes := nodes st2; heap := h |}.

(** The body of the second loop, lines 83-100. *)
Definition attribute_row (st : state) (r : row) : result state :=
  '(s1, s2) ← split_process (strip_process (process r));
  a ← match nodes st !! s2 with
      | Some a => Ok a
      | None => Raise KeyError
      end;
  n ← get (heap st) a;
  kw ← split_params (row_params r);
  let kw1 := <["child" := name n]> kw in
  kw2 ← match parent n with
        | None => Ok kw1
        | Some p => np ← get (heap st) p; Ok (<["parent" := name np]> kw1)
        end;
  Ok {| nodes := <[s2 := a]> (nodes st);
        heap := <[a := set_node n (row_label r) (row_module r)
                                  (row_params r) kw2]> (heap st) |}.

(** [for i, row in df.iterrows(): ...] *)
Fixpoint for_rows (body : state → row → result state) (rows : list row)
  (st : state) : result state :=
  match rows with
  | [] => Ok st
  | r :: rows' => st' ← body st r; for_rows body rows' st'
  end.

Definition structure_pass (rows : list row) : result state :=
  for_rows structure_row rows initial.

(** Both loops, lines 62-100. *)
Definition run_passes (rows : list row) : result state :=
  st ← structure_pass rows;
  for_rows attribute_row rows st.

(** [[node for process, node in nodes.items() if node.is_root]], line 102.
    The order of the items plays no part in the outcome: more than one root
    raises, and a single root is the same whatever the order. *)
Fixpoint roots_among (h : list node) (l : list addr) : result (list addr) :=
  match l with
  | [] => Ok []
  | a :: l' =>
      n ← get h a;
      rs ← roots_among h l';
      Ok (if bool_decide (parent n = None) then a :: rs else rs)
  end.

Definition roots (st : state) : result (list addr) :=
  roots_among (heap st) (map_to_list (nodes st)).*2.

(** Lines 103-106: [roots[0]] raises IndexError on the empty list. *)
Definition select_root (st : state) : result addr :=
  rs ← roots st;
  if decide (1 < length rs) then Raise (ValueError "Multiple roots detected...")
  else match rs with
       | r :: _ => Ok r
       | [] => Raise IndexError
       end.

(** The value of [build_tree]: the root object and the objects reachable
    from it, which live in the store. *)
Record tree : Type := Tree {
  root : addr;
  store : list node }.

Definition build_tree (rows : list row) : result tree :=
  st ← run_passes rows;
  r ← select_root st;
  Ok {| root := r; store := heap st |}.

(** ** Traversal *)

(** [LevelOrderIter]: the current level is yielded node by node while the
    children of its nodes are collected as the next level. *)
Fixpoint next_level (h : list node) (cur : list addr) : result (list addr) :=
  match cur with
  | [] => Ok []
  | a :: cur' =>
      n ← get h a;
      rest ← next_level h cur';
      Ok (children n ++ rest)
  end.

Fixpoint level_order (fuel : nat) (h : list node) (cur : list addr)
  : result (list addr) :=
  match cur with
  | [] => Ok []
  | _ :: _ =>
      match fuel with
      | O => Stuck
      | S f =>
          nxt ← next_level h cur;
          rest ← level_order f h nxt;
          Ok (cur ++ rest)
      end
  end.

(** [traverse_tree], lines 121-122. *)
Definition traverse_tree (t : tree) : result (list addr) :=
  level_order (S (length (store t))) (store t) [root t].

(** Requesting the traversal [k] times over. *)
Definition traversals (k : nat) (t : tree) : list (result (list addr)) :=
  (λ _, traverse_tree t) <$> seq 0 k.

(** ** Notions the properties are stated with *)




(** A row with the given relation expression and well-formed parameters. *)
Definition rel (x : string) : row :=
  {| process := x; row_label := "l"; row_module := "m";
     row_params := "k=v" |}.

(** [path_up h a l]: [l] is the chain of nodes from [a] up to a node
    without parent, [a] first. *)
Inductive path_up (h : list node) : addr → list addr → Prop :=
  | path_up_root a n :
      h !! a = Some n → parent n = None → path_up h a [a]
  | path_up_step a n p l :
      h !! a = Some n → parent n = Some p → path_up h p l →
      path_up h a (a :: l).

(** The depth of a node: the number of links between it and its root. *)
Definition depth (h : list node) (a : addr) (d : nat) : Prop :=
  ∃ l, path_up h a l ∧ length l = S d.

(** The store is a forest: parent and children links agree, and every node
    reaches a root by its parent links. *)
Record heap_wf (h : list node) : Prop := HeapWf {
  wf_parent : ∀ a n p,
    h !! a = Some n → parent n = Some p →
    ∃ np, h !! p = Some np ∧ a ∈ children np;
  wf_child : ∀ p np c,
    h !! p = Some np → c ∈ children np →
    ∃ nc, h !! c = Some nc ∧ parent nc = Some p;
  wf_path : ∀ a n, h !! a = Some n → ∃ l, path_up h a l }.

(** The registry maps a name to a live node that bears this name. *)
Record state_wf (st : state) : Prop := StateWf {
  wf_heap : heap_wf (heap st);
  wf_nodes : ∀ nm a,
    nodes st !! nm = Some a → ∃ n, heap st !! a = Some n ∧ name n = nm }.

(** A node of the registry that has no parent. *)
Definition rootless_registered (st : state) (a : addr) : Prop :=
  ∃ nm n, nodes st !! nm = Some a ∧ heap st !! a = Some n ∧ parent n = None.

(** What one parent assignment does to the node at [x]. *)
Definition reparent_node (c p : addr) (old : option addr) (x : addr)
  (n : node) : node :=
  if decide (x = c) then with_parent n (Some p)
  else if decide (x = p) then with_children n (children n ++ [c])
  else if decide (Some x = old)
       then with_children n (filter (λ y, y ≠ c) (children n))
       else n.

(** The name, parent and children of a node: what the tree is made of,
    apart from the attributes of the second pass. *)
Definition skeleton (n : node) : string * option addr * list addr :=
  (name n, parent n, children n).

(** [grows st st']: [st'] is [st] with bare nodes added to the store and
    registered under names that were free. *)
Definition grows (st st' : state) : Prop :=
  state_wf st' ∧
  (∀ x n, heap st !! x = Some n → heap st' !! x = Some n) ∧
  (∀ x n, heap st' !! x = Some n →
     heap st !! x = Some n ∨ (heap st !! x = None ∧ parent n = None)) ∧
  (∀ nm a, nodes st !! nm = Some a → nodes st' !! nm = Some a) ∧
  (∀ nm a, nodes st' !! nm = Some a →
     nodes st !! nm = Some a ∨ heap st !! a = None).

(** What the first loop does with a row that reads [p -> c]: the entries
    of other names stay, the objects keep their names and, but for the node
    of [c], their parents; no other registered node gains a parent; the node
    of [c] is fresh and parentless when [p] is empty, and otherwise has a
    parent named [p]. *)
Record step_effect (st st' : state) (p c : string) : Prop := StepEffect {
  eff_nodes : ∀ nm a,
    nm ≠ c → nodes st !! nm = Some a → nodes st' !! nm = Some a;
  eff_heap : ∀ x n,
    heap st !! x = Some n →
    ∃ n', heap st' !! x = Some n' ∧ name n' = name n ∧
          (nodes st' !! c ≠ Some x → parent n' = parent n);
  eff_back : ∀ nm a n',
    nm ≠ c → nodes st' !! nm = Some a → heap st' !! a = Some n' →
    parent n' ≠ None →
    ∃ n, nodes st !! nm = Some a ∧ heap st !! a = Some n ∧ parent n ≠ None;
  eff_child : ∃ a n,
    nodes st' !! c = Some a ∧ heap st' !! a = Some n ∧
    if decide (p = "") then parent n = None ∧ heap st !! a = None
    else ∃ b nb, parent n = Some b ∧ heap st' !! b = Some nb ∧ name nb = p }.

(** The node registered under [c] has a parent named [p]. *)
Definition linked (st : state) (c p : string) : Prop :=
  ∃ a n b nb,
    nodes st !! c = Some a ∧ heap st !! a = Some n ∧
    parent n = Some b ∧ heap st !! b = Some nb ∧ name nb = p.

(** The node at [a] carries a [kwargs] mapping whose [child] entry is its
    own name and whose [parent] entry, when it has a parent, is the name of
    the parent. *)
Definition populated (h : list node) (a : addr) : Prop :=
  ∃ n kw,
    h !! a = Some n ∧ kwargs n = Some kw ∧
    kw !! "child" = Some (name n) ∧
    ∀ b, parent n = Some b →
         ∃ nb, h !! b = Some nb ∧ kw !! "parent" = Some (name nb).

(** Every registered node that has a parent is the child of a row. *)
Definition children_declared (st : state) (rows : list row) : Prop :=
  ∀ nm a n,
    nodes st !! nm = Some a → heap st !! a = Some n → parent n ≠ None →
    ∃ r p, r ∈ rows ∧ parse_relation (process r) = Ok (p, nm).

(** Example inputs. *)
Definition redeclared_rows : list row :=
  [rel "-> R"; rel "R -> A"; rel "A -> C"; rel "-> A"; rel "R -> A"].

Definition moved_rows : list row :=
  [rel "-> A"; rel "A -> X"; rel "A -> B"; rel "X -> B"; rel "X -> D"].

Definition orphan_rows : list row :=
  [rel "-> R"; rel "R -> A"; rel "-> A"; rel "R -> A"].

Definition spaced_rows : list row :=
  [rel "->A"; rel "A->B"; rel "A- >B"].

(** ** More of the source: label default and text formatting *)

Module PyText.

(** [str.isspace] on the code points below 256: tab to carriage return,
    the four separators 28 to 31, space, next line (133) and no-break space
    (160). *)
Definition isspace (c : ascii) : bool :=
  let n := nat_of_ascii c in
  ((9 <=? n) && (n <=? 13)) || ((28 <=? n) && (n <=? 32))
  || (n =? 133) || (n =? 160).

(** [s.lstrip()]: leading whitespace is dropped. *)
Fixpoint lstrip (s : string) : string :=
  match s with
  | EmptyString => EmptyString
  | String c s' => if isspace c then lstrip s' else s
  end.

(** [s.lstrip(' ')]: leading spaces only. *)
Fixpoint lstrip_spaces (s : string) : string :=
  match s with
  | EmptyString => EmptyString
  | String c s' => if Ascii.eqb c " "%char then lstrip_spaces s' else s
  end.

(** The slices [s[:n]] and [s[n:]] for a length [n]. *)
Fixpoint take (n : nat) (s : string) : string :=
  match n, s with
  | S k, String c s' => String c (take k s')
  | _, _ => EmptyString
  end.

Fixpoint drop (n : nat) (s : string) : string :=
  match n, s with
  | S k, String _ s' => drop k s'
  | _, _ => s
  end.

(** [sep.join(l)]. *)
Fixpoint join (sep : string) (l : list string) : string :=
  match l with
  | [] => EmptyString
  | [x] => x
  | x :: l' => x +:+ sep +:+ join sep l'
  end.

Definition newline : string := String "010" EmptyString.

End PyText.

(** The label that [read_data] gives a row when the table has no label
    column (builder.py line 28): the second segment of the raw process
    field, without its leading whitespace. *)
Definition default_label (x : string) : result string :=
  '(_, s2) ← split_process x;
  Ok (PyText.lstrip s2).

(** [pretty_format], decorators.py: the text that the decorated function
    returns is cut into lines; [l] is the width of the leading whitespace of
    the first line; every line loses the spaces that lead its first [l]
    characters.  The split always has a first line. *)
Definition dedent_line (l : nat) (i : string) : string :=
  PyText.lstrip_spaces (PyText.take l i) +:+ PyText.drop l i.

Definition indent_width (first : string) : nat :=
  String.length first - String.length (PyText.lstrip first).

Definition formatting (mls : string) : string :=
  let mlsl := PyStr.split PyText.newline mls in
  let l := indent_width (default EmptyString (head mlsl)) in
  PyText.join PyText.newline (dedent_line l <$> mlsl).

Definition pretty_format {A : Type} (func : A → result string)
  : A → result string :=
  λ args, mls ← func args; Ok (formatting mls).

(** ** More notions for the properties *)

(** Every segment between bars holds an equals sign. *)
Definition params_ok (x : string) : bool :=
  forallb (PyStr.contains "=") (PyStr.split "|" x).

(** [x] lies below [r]: the chain from [x] up ends in [r]. *)
Definition descends (h : list node) (r x : addr) : Prop :=
  ∃ l, path_up h x l ∧ last l = Some r.

(** No node is listed twice among the children of a node. *)
Definition children_nodup (h : list node) : Prop :=
  ∀ a n, h !! a = Some n → NoDup (children n).

(** The node at [a] carries the attributes that the second loop takes from
    the row [r], a child of which it is: label, module and raw params of the
    row, and a [kwargs] mapping that is the parsed params with [child] set
    to the name of the node and, when the node has a parent, [parent] set to
    the name of the parent. *)
Definition attributed (h : list node) (a : addr) (r : row) : Prop :=
  ∃ n d kw,
    h !! a = Some n ∧
    label n = Some (row_label r) ∧ module n = Some (row_module r) ∧
    params n = Some (row_params r) ∧
    split_params (row_params r) = Ok d ∧ kwargs n = Some kw ∧
    kw !! "child" = Some (name n) ∧
    (∀ k, k ≠ "child" → k ≠ "parent" → kw !! k = d !! k) ∧
    match parent n with
    | Some b => ∃ nb, h !! b = Some nb ∧ kw !! "parent" = Some (name nb)
    | None => kw !! "parent" = d !! "parent"
    end.

(** A row that names [B] again, with other attributes and a [child]
    parameter of its own. *)
Definition relabel_row : row :=
  {| process := "A->B"; row_label := "second"; row_module := "join";
     row_params := "word=b|child=x" |}.

(** [k] spaces, and a line indented by them. *)
Fixpoint spaces (k : nat) : string :=
  match k with
  | O => EmptyString
  | S k' => String " " (spaces k')
  end.

Definition indent (k : nat) (x : string) : string := spaces k +:+ x.

(** * Properties of the relation parser *)

Section Strings.

Lemma prefix_arrow (s : string) :
  String.prefix "->" s = true ↔ ∃ r, s = "->" +:+ r.
Proof.
  split.
  - destruct s as [|c1 [|c2 r]]; cbn -[ascii_dec]; try discriminate.
    + destruct (ascii_dec "-" c1); discriminate.
    + destruct (ascii_dec "-" c1) as [<-|]; [|discriminate].
      destruct (ascii_dec ">" c2) as [<-|]; [|discriminate].
      intros _. by exists r.
  - intros [r ->]. by destruct r.
Qed.

Lemma prefix_arrow_false (s : string) :
  String.prefix "->" s = false ↔ ∀ r, s ≠ "->" +:+ r.
Proof.
  split.
  - intros H r ->. by destruct r.
  - intros H. destruct (String.prefix "->" s) eqn:E; [|done].
    apply prefix_arrow in E as [r ->]. by destruct (H r).
Qed.

Lemma contains_cons (sub : string) (c : ascii) (x : string) :
  PyStr.contains sub (String c x)
  = String.prefix sub (String c x) || PyStr.contains sub x.
Proof. reflexivity. Qed.

Lemma split_arrow_here (r : string) :
  PyStr.split "->" ("->" +:+ r) = "" :: PyStr.split "->" r.
Proof. by destruct r. Qed.

Lemma split_arrow_skip (c : ascii) (x : string) :
  String.prefix "->" (String c x) = false →
  PyStr.split "->" (String c x)
  = match PyStr.split "->" x with
    | seg :: segs => String c seg :: segs
    | [] => [String c ""]
    end.
Proof. unfold PyStr.split. cbn [PyStr.split_from]. by intros ->. Qed.

(** No occurrence of the delimiter: a single segment. *)
Lemma split_arrow_none (x : string) :
  PyStr.contains "->" x = false → PyStr.split "->" x = [x].
Proof.
  induction x as [|c x IH]; [done|].
  rewrite contains_cons. intros [Hp Hc]%orb_false_iff.
  rewrite split_arrow_skip by done. by rewrite IH.
Qed.

(** The text before the first occurrence is the first segment. *)
Lemma split_arrow_first (a r : string) :
  PyStr.contains "->" a = false →
  PyStr.split "->" (a +:+ "->" +:+ r) = a :: PyStr.split "->" r.
Proof.
  induction a as [|c a IH]; [intros _; apply split_arrow_here|].
  rewrite contains_cons. intros [Hp Hc]%orb_false_iff.
  change (String c a +:+ "->" +:+ r) with (String c (a +:+ "->" +:+ r)).
  rewrite split_arrow_skip, IH; [done..|].
  apply prefix_arrow_false. intros r' E.
  assert (Hp' := proj1 (prefix_arrow_false _) Hp).
  destruct a as [|c' a]; simpl in E; [discriminate|].
  injection E as -> -> E. by apply (Hp' a).
Qed.

(** An occurrence can be singled out as the first one. *)
Lemma contains_arrow_first (x : string) :
  PyStr.contains "->" x = true →
  ∃ a r, x = a +:+ "->" +:+ r ∧ PyStr.contains "->" a = false.
Proof.
  induction x as [|c x IH]; [discriminate|].
  rewrite contains_cons.
  destruct (String.prefix "->" (String c x)) eqn:Hp; simpl.
  - intros _. apply prefix_arrow in Hp as [r Hr].
    exists "", r. by rewrite Hr.
  - intros (a & r & -> & Ha)%IH. exists (String c a), r. split; [done|].
    rewrite contains_cons, Ha, orb_false_r.
    apply prefix_arrow_false. intros r' E.
    assert (Hp' := proj1 (prefix_arrow_false _) Hp).
    destruct a as [|c' a]; simpl in E; [discriminate|].
    injection E as -> -> E. by apply (Hp' (a +:+ "->" +:+ r)).
Qed.


End Strings.

(** What [split_process] returns once the first occurrence is singled
    out. *)
Lemma split_process_after_first (a r : string) :
  PyStr.contains "->" a = false →
  ∃ b, split_process (a +:+ "->" +:+ r) = Ok (a, b) ∧
       ((PyStr.contains "->" r = false ∧ b = r) ∨
        (∃ r', r = b +:+ "->" +:+ r' ∧ PyStr.contains "->" b = false)).
Proof.
  intros Ha. unfold split_process. rewrite split_arrow_first by done.
  destruct (PyStr.contains "->" r) eqn:Hr.
  - apply contains_arrow_first in Hr as (b & r' & -> & Hb).
    exists b. rewrite split_arrow_first by done.
    split; [done|]. right. by exists r'.
  - exists r. rewrite split_arrow_none by done.
    split; [done|]. by left.
Qed.

(** C10.  On every string in which the delimiter occurs, [split_process]
    returns a pair: the text before the first occurrence, and the text
    between the first and the second occurrence, or all that follows the
    first when there is no second one.  Whatever follows a second
    occurrence is ignored. *)
Theorem split_process_two_segments (x : string) :
  PyStr.contains "->" x = true →
  ∃ a b r,
    x = a +:+ "->" +:+ r ∧ PyStr.contains "->" a = false ∧
    split_process x = Ok (a, b) ∧
    ((PyStr.contains "->" r = false ∧ b = r) ∨
     (∃ r', r = b +:+ "->" +:+ r' ∧ PyStr.contains "->" b = false)).
Proof.
  intros (a & r & -> & Ha)%contains_arrow_first.
  destruct (split_process_after_first a r Ha) as (b & Hsplit & Hb).
  by exists a, b, r.
Qed.

Lemma split_process_two_segments_witness :
  ∃ a b r,
    "A->B->C" = a +:+ "->" +:+ r ∧ PyStr.contains "->" a = false ∧
    split_process "A->B->C" = Ok (a, b) ∧
    ((PyStr.contains "->" r = false ∧ b = r) ∨
     (∃ r', r = b +:+ "->" +:+ r' ∧ PyStr.contains "->" b = false)).
Proof. apply (split_process_two_segments "A->B->C"). reflexivity. Defined.

(** C5.  On the empty string [split_params] raises IndexError: the split
    on the bar gives one empty segment, whose split on the equals sign has
    no second element. *)
Theorem split_params_empty_raises : split_params "" = Raise IndexError.
Proof. reflexivity. Qed.




(** * The object store is a forest *)

Section Paths.
Context (h : list node).

Lemma path_up_det (a : addr) (l1 l2 : list addr) :
  path_up h a l1 → path_up h a l2 → l1 = l2.
Proof.
  intros H1. revert l2.
  induction H1 as [a n Ha Hn|a n p l Ha Hn _ IH]; intros l2 H2;
    inversion H2; simplify_eq; [done|].
  f_equal. by apply IH.
Qed.

Lemma path_up_nonempty (a : addr) (l : list addr) :
  path_up h a l → ∃ l', l = a :: l'.
Proof. destruct 1; eauto. Qed.

Lemma path_up_valid (a : addr) (l : list addr) :
  path_up h a l → ∀ x, x ∈ l → x < length h.
Proof.
  induction 1 as [a n Ha Hn|a n p l Ha Hn _ IH]; intros x Hx.
  - apply list_elem_of_singleton in Hx as ->. by eapply lookup_lt_Some.
  - apply elem_of_cons in Hx as [->|Hx]; [by eapply lookup_lt_Some|eauto].
Qed.

(** Every node of a chain starts a chain of its own, which is no longer. *)
Lemma path_up_suffix (a : addr) (l : list addr) :
  path_up h a l →
  ∀ x, x ∈ l → ∃ l', path_up h x l' ∧ length l' ≤ length l.
Proof.
  induction 1 as [a n Ha Hn|a n p l Ha Hn Hp IH]; intros x Hx.
  - apply list_elem_of_singleton in Hx as ->.
    exists [a]. split; [by eapply path_up_root|done].
  - apply elem_of_cons in Hx as [->|Hx].
    + exists (a :: l). split; [by eapply path_up_step|done].
    + destruct (IH x Hx) as (l' & Hl' & Hlen). exists l'. simpl. auto with lia.
Qed.

Lemma path_up_NoDup (a : addr) (l : list addr) : path_up h a l → NoDup l.
Proof.
  induction 1 as [a n Ha Hn|a n p l Ha Hn Hp IH].
  - apply NoDup_singleton.
  - constructor; [|done]. intros Hin.
    destruct (path_up_suffix p l Hp a Hin) as (l' & Hl' & Hlen).
    assert (l' = a :: l) as ->
      by (eapply path_up_det; [done|by eapply path_up_step]).
    simpl in Hlen. lia.
Qed.

(** A chain visits each node at most once: it is no longer than the
    store. *)
Lemma path_up_length (a : addr) (l : list addr) :
  path_up h a l → length l ≤ length h.
Proof.
  intros Hl. rewrite <-(length_seq (length h) 0).
  apply submseteq_length, NoDup_submseteq; [by eapply path_up_NoDup|].
  intros x Hx. apply elem_of_seq. split; [lia|].
  simpl. by eapply path_up_valid.
Qed.

Lemma no_self_parent (a : addr) (n : node) (l : list addr) :
  path_up h a l → h !! a = Some n → parent n ≠ Some a.
Proof.
  intros Hl Ha Hn.
  assert (HN := path_up_NoDup a l Hl).
  inversion Hl as [a' n' Ha' Hn'|a' n' p l' Ha' Hn' Hp]; simplify_eq.
  apply path_up_nonempty in Hp as [l'' ->].
  apply NoDup_cons in HN as [HN _]. apply HN. by left.
Qed.

(** The walk of the loop check agrees with the chain, given fuel for it. *)
Lemma on_path_reverse_spec (fuel : nat) (self a : addr) (l : list addr) :
  path_up h a l → length l ≤ fuel →
  on_path_reverse fuel h self a = Ok (bool_decide (self ∈ l)).
Proof.
  intros Hl. revert fuel.
  induction Hl as [a n Ha Hn|a n p l Ha Hn _ IH]; intros [|fuel] Hf;
    simpl in Hf; try lia; simpl.
  - destruct (decide (a = self)) as [->|E].
    + rewrite bool_decide_eq_true_2; [done|by left].
    + unfold get. rewrite Ha. simpl. rewrite Hn.
      rewrite bool_decide_eq_false_2; [done|].
      intros Hs%list_elem_of_singleton. congruence.
  - destruct (decide (a = self)) as [->|E].
    + rewrite bool_decide_eq_true_2; [done|by left].
    + unfold get. rewrite Ha. simpl. rewrite Hn, IH by lia.
      f_equal. apply bool_decide_ext. rewrite elem_of_cons.
      split; [by right|intros [?|?]; [congruence|done]].
Qed.

End Paths.

Section Reparent.
Context (h h' : list node) (c p : addr) (nc np : node).
Hypothesis Hwf : heap_wf h.
Hypothesis Hc : h !! c = Some nc.
Hypothesis Hp : h !! p = Some np.
Hypothesis Hnew : parent nc ≠ Some p.
Hypothesis Hpc : p ≠ c.
Hypothesis Hloop : ∀ l, path_up h p l → c ∉ l.
Hypothesis Hh' : ∀ x, h' !! x = reparent_node c p (parent nc) x <$> h !! x.

Lemma reparent_name (old : option addr) (x : addr) (n : node) :
  name (reparent_node c p old x n) = name n.
Proof. unfold reparent_node. by repeat case_decide. Qed.

Lemma reparent_parent (old : option addr) (x : addr) (n : node) :
  parent (reparent_node c p old x n)
  = if decide (x = c) then Some p else parent n.
Proof. unfold reparent_node. by repeat case_decide. Qed.

Lemma reparent_lookup (x : addr) (n' : node) :
  h' !! x = Some n' →
  ∃ n, h !! x = Some n ∧ n' = reparent_node c p (parent nc) x n.
Proof.
  rewrite Hh'. destruct (h !! x) as [n|]; [|done].
  intros [= <-]. eauto.
Qed.

Lemma reparent_lookup_other (x : addr) (n : node) :
  h !! x = Some n → x ≠ c →
  ∃ n', h' !! x = Some n' ∧ parent n' = parent n.
Proof.
  intros Hx Hne. eexists. rewrite Hh', Hx. split; [done|].
  rewrite reparent_parent. by case_decide.
Qed.

Lemma reparent_lookup_child :
  ∃ n', h' !! c = Some n' ∧ parent n' = Some p ∧ children n' = children nc.
Proof.
  eexists. rewrite Hh', Hc. split; [done|].
  unfold reparent_node. by rewrite decide_True.
Qed.

(** A chain that avoids the child is untouched. *)
Lemma reparent_path_avoiding (x : addr) (l : list addr) :
  path_up h x l → c ∉ l → path_up h' x l.
Proof.
  induction 1 as [a n Ha Hn|a n q l Ha Hn _ IH]; intros Hnot.
  - assert (Hne : a ≠ c) by (intros ->; apply Hnot; by left).
    destruct (reparent_lookup_other a n Ha Hne) as (n' & Hn' & Hpar).
    eapply path_up_root; [done|congruence].
  - apply not_elem_of_cons in Hnot as [Hne Hnot].
    destruct (reparent_lookup_other a n Ha) as (n' & Hn' & Hpar);
      [congruence|].
    apply (path_up_step h' a n' q l Hn'); [congruence|auto].
Qed.

Lemma reparent_path_child : ∃ l, path_up h' c l.
Proof.
  destruct (wf_path h Hwf p np Hp) as [l Hl].
  destruct reparent_lookup_child as (n' & Hn' & Hpar & _).
  exists (c :: l). apply (path_up_step h' c n' p l Hn' Hpar).
  apply reparent_path_avoiding; auto.
Qed.

Lemma reparent_path (x : addr) (l : list addr) :
  path_up h x l → ∃ l', path_up h' x l'.
Proof.
  induction 1 as [a n Ha Hn|a n q l Ha Hn _ [l' IH]].
  - destruct (decide (a = c)) as [->|Hne]; [apply reparent_path_child|].
    destruct (reparent_lookup_other a n Ha Hne) as (n' & Hn' & Hpar).
    exists [a]. eapply path_up_root; [done|congruence].
  - destruct (decide (a = c)) as [->|Hne]; [apply reparent_path_child|].
    destruct (reparent_lookup_other a n Ha Hne) as (n' & Hn' & Hpar).
    exists (a :: l'). apply (path_up_step h' a n' q l' Hn'); [congruence|done].
Qed.

Lemma reparent_wf : heap_wf h'.
Proof.
  split.
  - intros a n' q (n & Ha & ->)%reparent_lookup. rewrite reparent_parent.
    destruct (decide (a = c)) as [->|Hne].
    + intros [= <-]. eexists. rewrite Hh', Hp. split; [done|].
      unfold reparent_node. rewrite decide_False, decide_True by done.
      simpl. apply elem_of_app. right. by left.
    + intros Hq. destruct (wf_parent h Hwf a n q Ha Hq) as (nq & Hnq & Hin).
      eexists. rewrite Hh', Hnq. split; [done|].
      unfold reparent_node. repeat case_decide; simpl; [done| | |done].
      * apply elem_of_app. by left.
      * by apply list_elem_of_filter.
  - intros q n' y (nq & Hq & ->)%reparent_lookup Hy.
    assert (Hkeep : ∀ ny, h !! y = Some ny → parent ny = Some q → y ≠ c →
              ∃ nc', h' !! y = Some nc' ∧ parent nc' = Some q).
    { intros ny Hny Hpar Hne.
      destruct (reparent_lookup_other y ny Hny Hne) as (n' & Hn' & Hpar').
      exists n'. split; [done|congruence]. }
    unfold reparent_node in Hy. repeat case_decide; simpl in Hy; subst.
    + destruct (wf_child h Hwf c nq y Hq Hy) as (ny & Hny & Hpar).
      apply (Hkeep ny Hny Hpar). intros ->.
      destruct (wf_path h Hwf c ny Hny) as [l Hl].
      by apply (no_self_parent h c ny l Hl Hny).
    + apply elem_of_app in Hy as [Hy| ->%list_elem_of_singleton].
      * destruct (wf_child h Hwf p nq y Hq Hy) as (ny & Hny & Hpar).
        apply (Hkeep ny Hny Hpar). intros ->. congruence.
      * destruct reparent_lookup_child as (n' & Hn' & Hpar & _). eauto.
    + apply list_elem_of_filter in Hy as [Hne Hy].
      destruct (wf_child h Hwf q nq y Hq Hy) as (ny & Hny & Hpar). eauto.
    + destruct (wf_child h Hwf q nq y Hq Hy) as (ny & Hny & Hpar).
      apply (Hkeep ny Hny Hpar). intros ->. congruence.
  - intros a n' (n & Ha & ->)%reparent_lookup.
    destruct (wf_path h Hwf a n Ha) as [l Hl]. by eapply reparent_path.
Qed.

End Reparent.

Lemma get_Some (h : list node) (a : addr) (n : node) :
  h !! a = Some n → get h a = Ok n.
Proof. unfold get. by intros ->. Qed.

(** The two updates of a parent assignment, node by node. *)
Lemma set_parent_pointwise (h : list node) (c p : addr) (nc np : node) :
  heap_wf h → h !! c = Some nc → h !! p = Some np →
  parent nc ≠ Some p → p ≠ c →
  ∃ h', (h1 ← detach h c (parent nc); attach h1 c p) = Ok h' ∧
        ∀ x, h' !! x = reparent_node c p (parent nc) x <$> h !! x.
Proof.
  intros Hwf Hc Hp Hnew Hpc.
  assert (Hlc := lookup_lt_Some _ _ _ Hc).
  assert (Hlp := lookup_lt_Some _ _ _ Hp).
  destruct (parent nc) as [op|] eqn:Hold; simpl.
  - destruct (wf_parent h Hwf c nc op Hc Hold) as (nop & Hop & _).
    assert (Hlo := lookup_lt_Some _ _ _ Hop).
    assert (op ≠ c).
    { intros ->. destruct (wf_path h Hwf c nc Hc) as [l Hl].
      by apply (no_self_parent h c nc l Hl Hc). }
    assert (op ≠ p) by congruence.
    rewrite (get_Some h op nop Hop). simpl.
    erewrite get_Some; [|by rewrite list_lookup_insert_ne]. simpl.
    unfold attach.
    erewrite get_Some; [|by rewrite !list_lookup_insert_ne]. simpl.
    erewrite get_Some;
      [|rewrite list_lookup_insert_ne by done;
        apply list_lookup_insert_eq; by rewrite length_insert]. simpl.
    eexists. split; [done|]. intros x.
    unfold reparent_node.
    destruct (decide (x = c)) as [->|].
    { rewrite list_lookup_insert_eq by (by rewrite !length_insert).
      by rewrite Hc. }
    rewrite list_lookup_insert_ne by done.
    destruct (decide (x = p)) as [->|].
    { rewrite list_lookup_insert_eq by (by rewrite !length_insert).
      by rewrite Hp. }
    rewrite !list_lookup_insert_ne by done.
    destruct (decide (Some x = Some op)) as [[= ->]|Hne].
    { rewrite list_lookup_insert_eq by done. by rewrite Hop. }
    rewrite list_lookup_insert_ne by congruence.
    symmetry. apply option_fmap_id.
  - unfold attach. rewrite (get_Some h p np Hp). simpl.
    erewrite get_Some; [|by rewrite list_lookup_insert_ne]. simpl.
    eexists. split; [done|]. intros x.
    unfold reparent_node.
    destruct (decide (x = c)) as [->|].
    { rewrite list_lookup_insert_eq by (by rewrite !length_insert).
      by rewrite Hc. }
    rewrite list_lookup_insert_ne by done.
    destruct (decide (x = p)) as [->|].
    { rewrite list_lookup_insert_eq by done. by rewrite Hp. }
    rewrite list_lookup_insert_ne by done.
    destruct (decide (Some x = None)) as [|_]; [done|].
    symmetry. apply option_fmap_id.
Qed.

(** A parent assignment on a forest either raises LoopError or leaves a
    forest in which only the child has changed its parent. *)
Lemma set_parent_effect (h : list node) (c p : addr) (nc np : node) :
  heap_wf h → h !! c = Some nc → h !! p = Some np →
  set_parent h c p = Raise LoopError ∨
  ∃ h', set_parent h c p = Ok h' ∧ heap_wf h' ∧ length h' = length h ∧
    ∀ x n, h !! x = Some n →
      ∃ n', h' !! x = Some n' ∧ name n' = name n ∧
            parent n' = if decide (x = c) then Some p else parent n.
Proof.
  intros Hwf Hc Hp. unfold set_parent.
  rewrite (get_Some h c nc Hc). simpl.
  destruct (decide (parent nc = Some p)) as [Hsame|Hnew].
  { right. exists h. split; [done|]. split; [done|]. split; [done|].
    intros x n Hx. exists n. split; [done|]. split; [done|].
    case_decide; [|done]. congruence. }
  destruct (decide (p = c)) as [|Hpc]; [by left|].
  destruct (wf_path h Hwf p np Hp) as [l Hl].
  rewrite (on_path_reverse_spec h (length h) c p l Hl)
    by (by eapply path_up_length).
  simpl. destruct (bool_decide (c ∈ l)) eqn:Hin; [by left|].
  apply bool_decide_eq_false in Hin. right.
  destruct (set_parent_pointwise h c p nc np) as (h' & -> & Hh'); [done..|].
  exists h'. split; [done|]. split; [|split].
  - apply (reparent_wf h h' c p nc np); try done.
    intros l' Hl'. by rewrite (path_up_det h p l' l Hl' Hl).
  - apply Nat.le_antisymm.
    + apply Nat.le_ngt. intros Hlt.
      destruct (lookup_lt_is_Some_2 h' (length h) Hlt) as [n' Hn'].
      rewrite Hh', lookup_ge_None_2 in Hn' by done. done.
    + apply Nat.le_ngt. intros Hlt.
      destruct (lookup_lt_is_Some_2 h (length h') Hlt) as [n Hn].
      specialize (Hh' (length h')).
      rewrite Hn, lookup_ge_None_2 in Hh' by done. done.
  - intros x n Hx. eexists. rewrite Hh', Hx. split; [done|].
    split; [apply reparent_name|apply reparent_parent].
Qed.

(** ** Allocation and the registry *)

Lemma path_up_app (h ext : list node) (a : addr) (l : list addr) :
  path_up h a l → path_up (h ++ ext) a l.
Proof.
  induction 1 as [a n Ha Hn|a n q l Ha Hn _ IH].
  - eapply path_up_root; [by apply lookup_app_l_Some|done].
  - eapply path_up_step; [by apply lookup_app_l_Some|done..].
Qed.

Lemma alloc_wf (h : list node) (nm : string) :
  heap_wf h → heap_wf (h ++ [bare nm]).
Proof.
  intros Hwf. split.
  - intros a n q [[_ Ha]|[_ <-]]%lookup_snoc_Some Hq; [|done].
    destruct (wf_parent h Hwf a n q Ha Hq) as (nq & Hnq & Hin).
    exists nq. split; [by apply lookup_app_l_Some|done].
  - intros q nq y [[_ Hq]|[_ <-]]%lookup_snoc_Some Hy;
      [|by apply elem_of_nil in Hy].
    destruct (wf_child h Hwf q nq y Hq Hy) as (ny & Hny & Hpar).
    exists ny. split; [by apply lookup_app_l_Some|done].
  - intros a n Ha. assert (Ha' := Ha).
    apply lookup_snoc_Some in Ha as [[_ Ha]|[-> <-]].
    + destruct (wf_path h Hwf a n Ha) as [l Hl].
      exists l. by apply path_up_app.
    + exists [length h]. by eapply path_up_root.
Qed.

(** Registering a fresh bare node under a name keeps the state well
    formed, whether the name was taken or not. *)
Lemma alloc_state_wf (st : state) (nm : string) :
  state_wf st →
  state_wf {| nodes := <[nm := length (heap st)]> (nodes st);
              heap := heap st ++ [bare nm] |}.
Proof.
  intros [Hh Hn]. split; simpl.
  - by apply alloc_wf.
  - intros nm' a. rewrite lookup_insert. case_decide as E.
    + subst. intros [= <-]. exists (bare nm').
      split; [|done]. apply lookup_snoc_Some. by right.
    + intros (n & Ha & Hnm)%Hn. exists n.
      split; [by apply lookup_app_l_Some|done].
Qed.

Lemma grows_refl (st : state) : state_wf st → grows st st.
Proof.
  intros Hwf. split; [done|]. split; [auto|]. split; [auto|]. split; auto.
Qed.

Lemma grows_trans (st1 st2 st3 : state) :
  grows st1 st2 → grows st2 st3 → grows st1 st3.
Proof.
  intros (_ & Hb & Hc & Hd & He) (Hwf & Hb' & Hc' & Hd' & He').
  split; [done|]. split; [auto|]. split; [|split; [auto|]].
  - intros x n [Hx|[Hx Hn]]%Hc'.
    + by apply Hc.
    + right. split; [|done].
      destruct (heap st1 !! x) as [n1|] eqn:E; [|done].
      apply Hb in E. congruence.
  - intros nm a [Ha|Ha]%He'.
    + by apply He.
    + right. destruct (heap st1 !! a) as [n1|] eqn:E; [|done].
      apply Hb in E. congruence.
Qed.

Lemma get_node_grows (st st' : state) (nm : string) (a : addr) :
  state_wf st → get_node st nm = (st', a) →
  grows st st' ∧ nodes st' !! nm = Some a.
Proof.
  intros Hwf. unfold get_node.
  destruct (nodes st !! nm) as [a'|] eqn:E.
  - intros [= <- <-]. split; [by apply grows_refl|done].
  - simpl. intros [= <- <-]. simpl. split; [|apply lookup_insert_eq].
    split; [by apply alloc_state_wf|]. simpl.
    split; [intros x n; apply lookup_app_l_Some|]. split; [|split].
    + intros x n [[_ Hx]|[-> <-]]%lookup_snoc_Some; [by left|].
      right. split; [by apply lookup_ge_None_2|done].
    + intros nm' a' Ha'. rewrite lookup_insert_ne; [done|congruence].
    + intros nm' a'. rewrite lookup_insert. case_decide as E'.
      * intros [= <-]. right. by apply lookup_ge_None_2.
      * by left.
Qed.

(** ** The first loop, row by row *)

Lemma remove_spaces_app (a b : string) :
  PyStr.remove_spaces (a +:+ b)
  = PyStr.remove_spaces a +:+ PyStr.remove_spaces b.
Proof.
  induction a as [|ch a IH]; [done|].
  change (String ch a +:+ b) with (String ch (a +:+ b)). simpl.
  destruct (Ascii.eqb ch " "); [done|]. by rewrite IH.
Qed.

Lemma contains_app_arrow (a r : string) :
  PyStr.contains "->" (a +:+ "->" +:+ r) = true.
Proof.
  induction a as [|ch a IH].
  - change ("" +:+ "->" +:+ r) with (String "-" (String ">" r)).
    rewrite contains_cons.
    apply orb_true_iff. left. apply prefix_arrow. by exists r.
  - change (String ch a +:+ "->" +:+ r) with (String ch (a +:+ "->" +:+ r)).
    rewrite contains_cons, IH. apply orb_true_r.
Qed.

(** Removing spaces cannot remove an occurrence of the delimiter. *)
Lemma contains_strip (x : string) :
  PyStr.contains "->" x = true →
  PyStr.contains "->" (strip_process x) = true.
Proof.
  intros (a & r & -> & _)%contains_arrow_first.
  unfold strip_process. rewrite !remove_spaces_app.
  apply contains_app_arrow.
Qed.

Lemma parse_of_contains (x : string) :
  PyStr.contains "->" x = true → ∃ p c, parse_relation x = Ok (p, c).
Proof.
  intros (a & r & E & Ha)%contains_strip%contains_arrow_first.
  destruct (split_process_after_first a r Ha) as (b & Hsplit & _).
  exists a, b. unfold parse_relation. by rewrite E.
Qed.

Lemma parse_without_arrow (x : string) :
  PyStr.contains "->" (strip_process x) = false →
  parse_relation x = Raise IndexError.
Proof.
  intros Hx. unfold parse_relation, split_process.
  by rewrite split_arrow_none.
Qed.

Lemma skip_condition (x : string) :
  bool_decide (x = "") || negb (PyStr.contains "->" x)
  = negb (PyStr.contains "->" x).
Proof. case_bool_decide as E; [by rewrite E|done]. Qed.

Lemma root_declaration_effect (st : state) (c : string) :
  state_wf st →
  step_effect st {| nodes := <[c := length (heap st)]> (nodes st);
                    heap := heap st ++ [bare c] |} "" c.
Proof.
  intros Hwf. split; simpl.
  - intros nm a Hne Ha. by rewrite lookup_insert_ne.
  - intros x n Hx. exists n. split; [by apply lookup_app_l_Some|done].
  - intros nm a n' Hne. rewrite lookup_insert_ne by done.
    intros Ha Hn' Hroot.
    destruct (wf_nodes st Hwf nm a Ha) as (n & Hn & _).
    rewrite (lookup_app_l_Some _ _ _ _ Hn) in Hn'. injection Hn' as <-.
    by exists n.
  - exists (length (heap st)), (bare c). rewrite lookup_insert_eq.
    split; [done|]. split; [apply lookup_snoc_Some; by right|].
    split; [done|]. by apply lookup_ge_None_2.
Qed.

Lemma link_effect (st st2 : state) (h' : list node) (p c : string)
  (ap ac : addr) :
  p ≠ "" → grows st st2 →
  nodes st2 !! p = Some ap → nodes st2 !! c = Some ac →
  heap_wf h' → length h' = length (heap st2) →
  (∀ x n, heap st2 !! x = Some n →
     ∃ n', h' !! x = Some n' ∧ name n' = name n ∧
           parent n' = if decide (x = ac) then Some ap else parent n) →
  state_wf {| nodes := nodes st2; heap := h' |} ∧
  step_effect st {| nodes := nodes st2; heap := h' |} p c.
Proof.
  intros Hp (Hwf2 & Hb & Hc & Hd & He) Hap Hac Hwf' Hlen Hh'.
  assert (Hback : ∀ x n', h' !! x = Some n' →
            ∃ n, heap st2 !! x = Some n ∧ name n' = name n ∧
                 parent n' = if decide (x = ac) then Some ap else parent n).
  { intros x n' Hx.
    destruct (lookup_lt_is_Some_2 (heap st2) x) as [n Hn].
    { rewrite <-Hlen. by eapply lookup_lt_Some. }
    destruct (Hh' x n Hn) as (n'' & Hn'' & ? & ?).
    exists n. by simplify_eq. }
  split; [split|split]; simpl.
  - done.
  - intros nm a Ha. destruct (wf_nodes st2 Hwf2 nm a Ha) as (n & Hn & Hnm).
    destruct (Hh' a n Hn) as (n' & Hn' & Hname & _).
    exists n'. split; [done|congruence].
  - intros nm a _ Ha. by apply Hd.
  - intros x n Hx%Hb. rewrite Hac.
    destruct (Hh' x n Hx) as (n' & Hn' & Hname & Hpar).
    exists n'. split; [done|]. split; [done|].
    intros Hne. rewrite Hpar. case_decide; [|done]. congruence.
  - intros nm a n' Hne Ha Hn' Hroot.
    destruct (Hback a n' Hn') as (n & Hn & _ & Hpar).
    destruct (wf_nodes st2 Hwf2 nm a Ha) as (n1 & Hn1 & Hnm1).
    destruct (wf_nodes st2 Hwf2 c ac Hac) as (n2 & Hn2 & Hnm2).
    rewrite decide_False in Hpar by (intros ->; congruence).
    destruct (Hc a n Hn) as [Hold|[_ Hnone]]; [|congruence].
    destruct (He nm a Ha) as [Hreg|Hnone]; [|congruence].
    exists n. split; [done|]. split; [done|congruence].
  - destruct (wf_nodes st2 Hwf2 c ac Hac) as (nc & Hnc & _).
    destruct (wf_nodes st2 Hwf2 p ap Hap) as (np & Hnp & Hname).
    destruct (Hh' ac nc Hnc) as (nc' & Hnc' & _ & Hpar).
    destruct (Hh' ap np Hnp) as (np' & Hnp' & Hname' & _).
    rewrite decide_True in Hpar by done.
    exists ac, nc'. split; [done|]. split; [done|].
    rewrite decide_False by done.
    exists ap, np'. split; [done|]. split; [done|congruence].
Qed.

(** On a well-formed state the first loop's body skips the row, or raises
    LoopError, or performs the declared relation. *)
Lemma structure_row_effect (st : state) (r : row) :
  state_wf st →
  match structure_row st r with
  | Stuck => False
  | Raise e => e = LoopError
  | Ok st' =>
      state_wf st' ∧
      ((PyStr.contains "->" (process r) = false ∧ st' = st) ∨
       (PyStr.contains "->" (process r) = true ∧
        ∃ p c, parse_relation (process r) = Ok (p, c) ∧
               step_effect st st' p c))
  end.
Proof.
  intros Hwf. unfold structure_row. rewrite skip_condition.
  destruct (PyStr.contains "->" (process r)) eqn:Hx; simpl; [|by auto].
  destruct (parse_of_contains _ Hx) as (p & c & Hparse).
  assert (Hparse' := Hparse). unfold parse_relation in Hparse'.
  rewrite Hparse'. simpl.
  case_bool_decide as Hp.
  - subst p. simpl. split; [by apply alloc_state_wf|].
    right. split; [done|]. exists "", c.
    split; [done|]. by apply root_declaration_effect.
  - destruct (get_node st p) as [st1 ap] eqn:E1.
    destruct (get_node st1 c) as [st2 ac] eqn:E2.
    destruct (get_node_grows _ _ _ _ Hwf E1) as [G1 Hap].
    assert (Hwf1 : state_wf st1) by apply G1.
    destruct (get_node_grows _ _ _ _ Hwf1 E2) as [G2 Hac].
    assert (G := grows_trans _ _ _ G1 G2).
    assert (Hwf2 : state_wf st2) by apply G2.
    assert (Hap2 : nodes st2 !! p = Some ap) by (by apply G2).
    destruct (wf_nodes st2 Hwf2 c ac Hac) as (nc & Hnc & _).
    destruct (wf_nodes st2 Hwf2 p ap Hap2) as (np & Hnp & _).
    destruct (set_parent_effect (heap st2) ac ap nc np)
      as [->|(h' & -> & Hwf' & Hlen & Hh')];
      [apply Hwf2|done..| |]; simpl; [done|].
    destruct (link_effect st st2 h' p c ap ac) as [Hwf3 Heff]; [done..|].
    split; [done|]. right. split; [done|]. by exists p, c.
Qed.

Lemma for_rows_app (body : state → row → result state)
  (rows1 rows2 : list row) (st : state) :
  for_rows body (rows1 ++ rows2) st
  = (st1 ← for_rows body rows1 st; for_rows body rows2 st1).
Proof.
  revert st. induction rows1 as [|r rows1 IH]; intros st; [done|].
  simpl. destruct (body st r) as [st'| |]; simpl; [apply IH|done..].
Qed.

Lemma initial_wf : state_wf initial.
Proof.
  split; [split|]; simpl.
  - intros a n p Ha. by rewrite lookup_nil in Ha.
  - intros p np c Hp. by rewrite lookup_nil in Hp.
  - intros a n Ha. by rewrite lookup_nil in Ha.
  - intros nm a Ha. by rewrite lookup_empty in Ha.
Qed.

(** The first loop never gets stuck, raises nothing but LoopError, and
    keeps the state well formed with every child accounted for by a row. *)
Lemma structure_rows_effect (all rows : list row) (st : state) :
  state_wf st → children_declared st all → (∀ r, r ∈ rows → r ∈ all) →
  match for_rows structure_row rows st with
  | Stuck => False
  | Raise e => e = LoopError
  | Ok st' => state_wf st' ∧ children_declared st' all
  end.
Proof.
  revert st. induction rows as [|r rows IH]; intros st Hwf Hdecl Hall.
  { by simpl. }
  simpl. assert (Hr := structure_row_effect st r Hwf).
  destruct (structure_row st r) as [st1|e|]; simpl; [|done..].
  destruct Hr as [Hwf1 Hr].
  apply IH; [done| |intros r' Hr'; apply Hall; by right].
  destruct Hr as [[_ ->]|(_ & p & c & Hparse & Heff)]; [done|].
  intros nm a n' Ha Hn' Hroot.
  destruct (decide (nm = c)) as [->|Hne].
  - exists r, p. split; [apply Hall; by left|done].
  - destruct (eff_back _ _ _ _ Heff nm a n' Hne Ha Hn' Hroot)
      as (n & Ha0 & Hn & Hroot0).
    by apply (Hdecl nm a n).
Qed.

Lemma structure_pass_effect (rows : list row) :
  match structure_pass rows with
  | Stuck => False
  | Raise e => e = LoopError
  | Ok st => state_wf st ∧ children_declared st rows
  end.
Proof.
  apply structure_rows_effect; [apply initial_wf| |done].
  intros nm a n Ha. simpl in Ha. by rewrite lookup_empty in Ha.
Qed.

(** A relation stays in force while the rows that follow name other
    children. *)
Lemma linked_preserved (st st' : state) (r : row) (c p : string) :
  state_wf st → linked st c p → structure_row st r = Ok st' →
  (PyStr.contains "->" (process r) = true →
   ∀ p', parse_relation (process r) ≠ Ok (p', c)) →
  linked st' c p.
Proof.
  intros Hwf Hl Hstep Hother.
  assert (Hr := structure_row_effect st r Hwf). rewrite Hstep in Hr.
  destruct Hr as [Hwf' [[_ ->]|(Hx & p' & c' & Hparse & Heff)]]; [done|].
  assert (Hne : c ≠ c') by (intros ->; by apply (Hother Hx p')).
  destruct Hl as (a & n & b & nb & Ha & Hn & Hpar & Hb & Hname).
  destruct (eff_heap _ _ _ _ Heff a n Hn) as (n' & Hn' & _ & Hpar').
  destruct (eff_heap _ _ _ _ Heff b nb Hb) as (nb' & Hnb' & Hname' & _).
  assert (Ha' := eff_nodes _ _ _ _ Heff c a Hne Ha).
  exists a, n', b, nb'. split; [done|]. split; [done|].
  split; [|split; [done|congruence]].
  rewrite Hpar'; [done|]. intros Hc'.
  destruct (wf_nodes st' Hwf' c a Ha') as (n1 & Hn1 & Hnm1).
  destruct (wf_nodes st' Hwf' c' a Hc') as (n2 & Hn2 & Hnm2).
  congruence.
Qed.

Lemma linked_after (rows : list row) (st st' : state) (c p : string) :
  state_wf st → linked st c p → for_rows structure_row rows st = Ok st' →
  (∀ r, r ∈ rows → PyStr.contains "->" (process r) = true →
        ∀ p', parse_relation (process r) ≠ Ok (p', c)) →
  linked st' c p.
Proof.
  revert st. induction rows as [|r rows IH]; intros st Hwf Hl Hrun Hother.
  { simpl in Hrun. by injection Hrun as <-. }
  simpl in Hrun. assert (Hr := structure_row_effect st r Hwf).
  destruct (structure_row st r) as [st1|e|] eqn:Hstep; [|done..].
  simpl in Hrun. apply (IH st1); [apply Hr| |done|].
  - apply (linked_preserved st st1 r); [done..|]. apply Hother. by left.
  - intros r' Hr'. apply Hother. by right.
Qed.

(** ** The second loop *)

Lemma skeleton_lookup (h h' : list node) (x : addr) (n : node) :
  skeleton <$> h' = skeleton <$> h → h !! x = Some n →
  ∃ n', h' !! x = Some n' ∧ name n' = name n ∧ parent n' = parent n ∧
        children n' = children n.
Proof.
  intros Hsk Hx.
  assert (E : (skeleton <$> h') !! x = Some (skeleton n))
    by (by rewrite Hsk, list_lookup_fmap, Hx).
  rewrite list_lookup_fmap in E.
  destruct (h' !! x) as [n'|]; [|done].
  injection E as E1 E2 E3. by exists n'.
Qed.

Lemma path_up_skeleton (h h' : list node) (a : addr) (l : list addr) :
  skeleton <$> h' = skeleton <$> h → path_up h a l → path_up h' a l.
Proof.
  intros Hsk. induction 1 as [a n Ha Hn|a n q l Ha Hn _ IH];
    destruct (skeleton_lookup h h' a n Hsk Ha) as (n' & Hn' & _ & Hpar & _).
  - apply (path_up_root h' a n' Hn'). congruence.
  - apply (path_up_step h' a n' q l Hn'); [congruence|done].
Qed.

(** Well-formedness looks at names, parents and children only. *)
Lemma heap_wf_skeleton (h h' : list node) :
  skeleton <$> h' = skeleton <$> h → heap_wf h → heap_wf h'.
Proof.
  intros Hsk Hwf. assert (Hsk' := eq_sym Hsk). split.
  - intros a n' q Ha Hq.
    destruct (skeleton_lookup h' h a n' Hsk' Ha) as (n & Hn & _ & Hpar & _).
    destruct (wf_parent h Hwf a n q Hn) as (nq & Hnq & Hin); [congruence|].
    destruct (skeleton_lookup h h' q nq Hsk Hnq) as (nq' & ? & _ & _ & Hch).
    exists nq'. split; [done|]. by rewrite Hch.
  - intros q nq' y Hq Hy.
    destruct (skeleton_lookup h' h q nq' Hsk' Hq) as (nq & Hnq & _ & _ & Hch).
    destruct (wf_child h Hwf q nq y Hnq) as (ny & Hny & Hpar);
      [by rewrite Hch|].
    destruct (skeleton_lookup h h' y ny Hsk Hny) as (ny' & ? & _ & Hpar' & _).
    exists ny'. split; [done|congruence].
  - intros a n' Ha.
    destruct (skeleton_lookup h' h a n' Hsk' Ha) as (n & Hn & _).
    destruct (wf_path h Hwf a n Hn) as [l Hl].
    exists l. by apply (path_up_skeleton h h').
Qed.

Lemma state_wf_skeleton (st st' : state) :
  nodes st' = nodes st → skeleton <$> heap st' = skeleton <$> heap st →
  state_wf st → state_wf st'.
Proof.
  intros Hn Hsk [Hh Hreg]. split.
  - by apply (heap_wf_skeleton (heap st)).
  - intros nm a. rewrite Hn. intros (n & Ha & Hnm)%Hreg.
    destruct (skeleton_lookup _ _ a n Hsk Ha) as (n' & Hn' & Hname & _).
    exists n'. split; [done|congruence].
Qed.

Lemma split_process_not_stuck (x : string) : split_process x ≠ Stuck.
Proof.
  unfold split_process. by destruct (PyStr.split "->" x) as [|? [|? ?]].
Qed.

Lemma params_dict_not_stuck (segs : list string) (d : gmap string string) :
  params_dict segs d ≠ Stuck.
Proof.
  revert d. induction segs as [|seg segs IH]; intros d; [done|].
  simpl. unfold param_pair.
  destruct (PyStr.split "=" seg) as [|? [|? ?]]; simpl; [done..|apply IH].
Qed.

(** The second loop's body never gets stuck on a well-formed state; when
    it returns, the registry and the shape of the tree are as before, the
    node of the row's child is populated, and populated nodes stay so. *)
Lemma attribute_row_effect (st : state) (r : row) :
  state_wf st →
  match attribute_row st r with
  | Stuck => False
  | Raise e => True
  | Ok st' =>
      nodes st' = nodes st ∧
      skeleton <$> heap st' = skeleton <$> heap st ∧
      (∃ p c a, parse_relation (process r) = Ok (p, c) ∧
                nodes st !! c = Some a ∧ populated (heap st') a) ∧
      (∀ x, populated (heap st) x → populated (heap st') x)
  end.
Proof.
  intros Hwf. unfold attribute_row.
  assert (Hns := split_process_not_stuck (strip_process (process r))).
  destruct (split_process (strip_process (process r))) as [[p c]|e|] eqn:Hparse;
    simpl; [|done..].
  destruct (nodes st !! c) as [a|] eqn:Ha; simpl; [|done].
  destruct (wf_nodes st Hwf c a Ha) as (n & Hn & Hname).
  rewrite (get_Some _ _ _ Hn). simpl.
  assert (Hps := params_dict_not_stuck (PyStr.split "|" (row_params r)) ∅).
  unfold split_params.
  destruct (params_dict _ _) as [kw|e|]; simpl; [|done..].
  set (kw1 := <["child" := name n]> kw).
  assert (∃ kw2,
    match parent n with
    | Some b => np ← get (heap st) b; Ok (<["parent" := name np]> kw1)
    | None => Ok kw1
    end = Ok kw2 ∧ kw2 !! "child" = Some (name n) ∧
    ∀ b, parent n = Some b →
         ∃ nb, heap st !! b = Some nb ∧ kw2 !! "parent" = Some (name nb))
    as (kw2 & -> & Hchild & Hparent).
  { destruct (parent n) as [b|] eqn:Hpar.
    - destruct (wf_parent _ (wf_heap st Hwf) a n b Hn Hpar) as (nb & Hnb & _).
      rewrite (get_Some _ _ _ Hnb). simpl. eexists. split; [done|]. split.
      + rewrite lookup_insert_ne by done. apply lookup_insert_eq.
      + intros ? [= <-]. exists nb. split; [done|apply lookup_insert_eq].
    - exists kw1. split; [done|]. split; [apply lookup_insert_eq|done]. }
  simpl.
  set (n' := set_node n (row_label r) (row_module r) (row_params r) kw2).
  assert (Hsk : skeleton <$> <[a := n']> (heap st) = skeleton <$> heap st).
  { rewrite list_fmap_insert. apply list_insert_id.
    by rewrite list_lookup_fmap, Hn. }
  assert (Hla := lookup_lt_Some _ _ _ Hn).
  assert (Hnew : populated (<[a := n']> (heap st)) a).
  { exists n', kw2. split; [by apply list_lookup_insert_eq|].
    split; [done|]. split; [done|]. intros b Hb.
    destruct (Hparent b Hb) as (nb & Hnb & Hkw).
    destruct (skeleton_lookup _ _ b nb Hsk Hnb) as (nb' & Hnb' & Hnm & _).
    exists nb'. split; [done|congruence]. }
  split; [by apply insert_id|]. split; [done|]. split.
  - by exists p, c, a.
  - intros x Hx. destruct (decide (x = a)) as [->|Hne]; [done|].
    destruct Hx as (nx & kwx & Hnx & Hkw & Hch & Hpa).
    exists nx, kwx. split; [by rewrite list_lookup_insert_ne|].
    split; [done|]. split; [done|]. intros b Hb.
    destruct (Hpa b Hb) as (nb & Hnb & Hkwb).
    destruct (skeleton_lookup _ _ b nb Hsk Hnb) as (nb' & Hnb' & Hnm & _).
    exists nb'. split; [done|congruence].
Qed.

Lemma attribute_rows_effect (rows : list row) (st : state) :
  state_wf st →
  match for_rows attribute_row rows st with
  | Stuck => False
  | Raise e => True
  | Ok st' =>
      nodes st' = nodes st ∧
      skeleton <$> heap st' = skeleton <$> heap st ∧
      (∀ x, populated (heap st) x → populated (heap st') x) ∧
      ∀ r p c, r ∈ rows → parse_relation (process r) = Ok (p, c) →
               ∃ a, nodes st !! c = Some a ∧ populated (heap st') a
  end.
Proof.
  revert st. induction rows as [|r rows IH]; intros st Hwf; simpl.
  { split; [done|]. split; [done|]. split; [done|].
    intros r p c Hr. by apply elem_of_nil in Hr. }
  assert (Hr := attribute_row_effect st r Hwf).
  destruct (attribute_row st r) as [st1|e|]; simpl; [|done..].
  destruct Hr as (Hn1 & Hsk1 & (p1 & c1 & a1 & Hparse1 & Ha1 & Hpop1) & Hkeep1).
  assert (Hwf1 : state_wf st1) by (by apply (state_wf_skeleton st)).
  specialize (IH st1 Hwf1).
  destruct (for_rows attribute_row rows st1) as [st'|e|]; [|done..].
  destruct IH as (Hn & Hsk & Hkeep & Hrows).
  split; [congruence|]. split; [congruence|]. split; [auto|].
  intros r' p c [->|Hr']%elem_of_cons Hparse.
  - rewrite Hparse1 in Hparse. injection Hparse as -> ->.
    exists a1. auto.
  - destruct (Hrows r' p c Hr' Hparse) as (a & Ha & Hpop).
    exists a. split; [congruence|done].
Qed.

(** ** Both loops *)

Lemma run_passes_effect (rows : list row) :
  match run_passes rows with
  | Stuck => False
  | Raise e => True
  | Ok st =>
      state_wf st ∧
      ∃ st1, structure_pass rows = Ok st1 ∧ state_wf st1 ∧
             nodes st = nodes st1 ∧
             skeleton <$> heap st = skeleton <$> heap st1 ∧
             ∀ nm a n, nodes st !! nm = Some a → heap st !! a = Some n →
                       parent n ≠ None → populated (heap st) a
  end.
Proof.
  unfold run_passes. assert (H1 := structure_pass_effect rows).
  destruct (structure_pass rows) as [st1|e|]; simpl; [|done..].
  destruct H1 as [Hwf1 Hdecl].
  assert (H2 := attribute_rows_effect rows st1 Hwf1).
  destruct (for_rows attribute_row rows st1) as [st|e|]; [|done..].
  destruct H2 as (Hn & Hsk & _ & Hrows).
  split; [by apply (state_wf_skeleton st1)|].
  exists st1. split; [done|]. split; [done|]. split; [done|]. split; [done|].
  intros nm a n Ha Hn' Hroot.
  destruct (skeleton_lookup _ _ a n (eq_sym Hsk) Hn') as (n1 & Hn1 & _ & Hpar & _).
  rewrite Hn in Ha.
  destruct (Hdecl nm a n1 Ha Hn1) as (r & p & Hr & Hparse); [congruence|].
  destruct (Hrows r p nm Hr Hparse) as (a' & Ha' & Hpop). congruence.
Qed.

Lemma linked_skeleton (st st' : state) (c p : string) :
  nodes st' = nodes st → skeleton <$> heap st' = skeleton <$> heap st →
  linked st c p → linked st' c p.
Proof.
  intros Hn Hsk (a & n & b & nb & Ha & Hna & Hpar & Hb & Hname).
  destruct (skeleton_lookup _ _ a n Hsk Hna) as (n' & ? & _ & Hpar' & _).
  destruct (skeleton_lookup _ _ b nb Hsk Hb) as (nb' & ? & Hname' & _).
  exists a, n', b, nb'. rewrite Hn. repeat split; congruence.
Qed.

Lemma linked_by_last (pre post : list row) (r : row) (p c : string)
  (st : state) :
  PyStr.contains "->" (process r) = true →
  parse_relation (process r) = Ok (p, c) → p ≠ "" →
  (∀ r', r' ∈ post → PyStr.contains "->" (process r') = true →
         ∀ p', parse_relation (process r') ≠ Ok (p', c)) →
  structure_pass (pre ++ r :: post) = Ok st → linked st c p.
Proof.
  intros Hx Hparse Hp Hpost. unfold structure_pass.
  rewrite for_rows_app.
  assert (H0 := structure_rows_effect pre pre initial initial_wf).
  destruct (for_rows structure_row pre initial) as [st0|e|]; simpl; [|done..].
  destruct H0 as [Hwf0 _]; [|done|].
  { intros nm a n Ha. simpl in Ha. by rewrite lookup_empty in Ha. }
  assert (Hr := structure_row_effect st0 r Hwf0).
  destruct (structure_row st0 r) as [st1|e|]; simpl; [|done..].
  destruct Hr as [Hwf1 [[Hx' _]|(_ & p' & c' & Hparse' & Heff)]];
    [congruence|].
  rewrite Hparse in Hparse'. injection Hparse' as <- <-.
  intros Hrun. apply (linked_after post st1 st c p); [done| |done..].
  destruct (eff_child _ _ _ _ Heff) as (a & n & Ha & Hn & Hch).
  rewrite decide_False in Hch by done.
  destruct Hch as (b & nb & Hpar & Hb & Hname).
  by exists a, n, b, nb.
Qed.

(** C4.  After a row [p -> c] that no later relation row for the child
    [c] follows, the node registered under [c] has a parent named [p]:
    both once the first loop is through and at the end of both loops.  So
    the last relation row that names [c] as its child decides the parent,
    whatever earlier rows said. *)
Theorem last_relation_wins (pre post : list row) (r : row) (p c : string) :
  PyStr.contains "->" (process r) = true →
  parse_relation (process r) = Ok (p, c) → p ≠ "" →
  (∀ r', r' ∈ post → PyStr.contains "->" (process r') = true →
         ∀ p', parse_relation (process r') ≠ Ok (p', c)) →
  (∀ st, structure_pass (pre ++ r :: post) = Ok st → linked st c p) ∧
  (∀ st, run_passes (pre ++ r :: post) = Ok st → linked st c p).
Proof.
  intros Hx Hparse Hp Hpost. split.
  - intros st. by apply linked_by_last.
  - intros st Hrun. assert (H := run_passes_effect (pre ++ r :: post)).
    rewrite Hrun in H.
    destruct H as (_ & st1 & Hst1 & _ & Hn & Hsk & _).
    apply (linked_skeleton st1); [done..|].
    by apply (linked_by_last pre post r).
Qed.

Lemma last_relation_wins_witness :
  (∃ st, run_passes moved_rows = Ok st) ∧
  (∀ st, structure_pass moved_rows = Ok st → linked st "B" "X") ∧
  (∀ st, run_passes moved_rows = Ok st → linked st "B" "X").
Proof.
  split; [eexists; vm_compute; reflexivity|].
  apply (last_relation_wins [rel "-> A"; rel "A -> X"; rel "A -> B"]
           [rel "X -> D"] (rel "X -> B") "X" "B").
  - reflexivity.
  - reflexivity.
  - discriminate.
  - intros r' Hr' _ p' Hparse.
    apply list_elem_of_singleton in Hr'. subst r'.
    vm_compute in Hparse. discriminate Hparse.
Defined.

(** The two rows of the specification's example: the second loop ends
    with [B] under [X]; the build itself then stops at the two roots [A]
    and [X]. *)
Example two_rows_move_child :
  (∃ st, run_passes [rel "A -> B"; rel "X -> B"] = Ok st ∧
         nodes st !! "B" = Some 1 ∧ nodes st !! "X" = Some 2 ∧
         parent <$> heap st !! 1 = Some (Some 2)) ∧
  build_tree [rel "A -> B"; rel "X -> B"]
  = Raise (ValueError "Multiple roots detected...").
Proof.
  split; [|vm_compute; reflexivity].
  eexists. split; [vm_compute; reflexivity|].
  repeat split; vm_compute; reflexivity.
Qed.

(** C2, as the code has it.  At the end of both loops every node that the
    registry holds and that has a parent carries a [kwargs] mapping in
    which [child] is its own name and [parent] is the name of its parent.
    Nodes that a root declaration has pushed out of the registry are not
    covered. *)
Theorem kwargs_of_registered (rows : list row) (st : state) (nm : string)
  (a b : addr) (n : node) :
  run_passes rows = Ok st →
  nodes st !! nm = Some a → heap st !! a = Some n → parent n = Some b →
  name n = nm ∧
  ∃ kw nb, kwargs n = Some kw ∧ heap st !! b = Some nb ∧
           kw !! "child" = Some (name n) ∧
           kw !! "parent" = Some (name nb).
Proof.
  intros Hrun Ha Hn Hpar. assert (H := run_passes_effect rows).
  rewrite Hrun in H. destruct H as (Hwf & st1 & _ & _ & _ & _ & Hpop).
  split.
  - destruct (wf_nodes st Hwf nm a Ha) as (n' & Hn' & Hname). congruence.
  - destruct (Hpop nm a n Ha Hn) as (n' & kw & Hn' & Hkw & Hch & Hpa);
      [congruence|].
    assert (n' = n) as -> by congruence.
    destruct (Hpa b Hpar) as (nb & Hnb & Hkwb).
    by exists kw, nb.
Qed.

Lemma kwargs_of_registered_witness :
  ∃ st n,
    run_passes redeclared_rows = Ok st ∧ heap st !! 2 = Some n ∧
    name n = "C" ∧
    ∃ kw nb, kwargs n = Some kw ∧ heap st !! 1 = Some nb ∧
             kw !! "child" = Some (name n) ∧
             kw !! "parent" = Some (name nb).
Proof.
  eexists. eexists.
  split; [vm_compute; reflexivity|].
  split; [vm_compute; reflexivity|].
  apply (kwargs_of_registered redeclared_rows _ "C" 2 1);
    vm_compute; reflexivity.
Defined.

(** C2, as stated, fails: the node that was first registered as [A] is
    still a child of [R] in the tree that is returned, and the second loop
    never reached it. *)
Lemma kwargs_missing_counterexample :
  ∃ t out n,
    build_tree orphan_rows = Ok t ∧ traverse_tree t = Ok out ∧
    1 ∈ out ∧ store t !! 1 = Some n ∧ parent n = Some (root t) ∧
    kwargs n = None.
Proof.
  eexists. eexists. eexists.
  split; [vm_compute; reflexivity|].
  split; [vm_compute; reflexivity|].
  split; [set_solver|].
  split; [vm_compute; reflexivity|]. by split.
Qed.

(** C9.  The rows [-> R], [R -> A], [A -> C], [-> A], [R -> A] build a
    tree with the single root [R]; the node first registered as [A] is
    reached by the traversal, is still a child of [R] and the parent of
    [C], is no longer in the registry, which holds another node for [A],
    and has no label, module, params or kwargs. *)
Theorem redeclared_root_leaves_orphan :
  ∃ st t out n nr,
    run_passes redeclared_rows = Ok st ∧
    build_tree redeclared_rows = Ok t ∧ root t = 0 ∧
    traverse_tree t = Ok out ∧ 1 ∈ out ∧
    store t !! 1 = Some n ∧ name n = "A" ∧ parent n = Some 0 ∧
    children n = [2] ∧
    store t !! 0 = Some nr ∧ name nr = "R" ∧ parent nr = None ∧
    1 ∈ children nr ∧
    nodes st !! "A" = Some 3 ∧ (∀ nm, nodes st !! nm ≠ Some 1) ∧
    label n = None ∧ module n = None ∧ params n = None ∧ kwargs n = None.
Proof.
  assert (H := run_passes_effect redeclared_rows).
  destruct (run_passes redeclared_rows) as [st|e|] eqn:Hrun;
    [|by vm_compute in Hrun..].
  destruct H as [Hwf _].
  exists st. eexists. eexists. eexists. eexists.
  split; [done|].
  split; [vm_compute; reflexivity|].
  split; [done|].
  split; [vm_compute; reflexivity|].
  split; [set_solver|].
  split; [vm_compute; reflexivity|].
  do 3 (split; [done|]).
  split; [vm_compute; reflexivity|].
  do 2 (split; [done|]).
  split; [set_solver|].
  assert (HA : nodes st !! "A" = Some 3)
    by (vm_compute in Hrun; injection Hrun as <-; reflexivity).
  split; [done|]. split; [|done].
  intros nm Hnm. destruct (wf_nodes st Hwf nm 1 Hnm) as (n & Hn & Hname).
  assert (name n = "A")
    by (vm_compute in Hrun; injection Hrun as <-;
        vm_compute in Hn; by injection Hn as <-).
  congruence.
Qed.

(** C3, as the code has it.  A relation row with an empty parent segment
    registers a fresh bare node under the child name, replacing whatever
    the registry held there; all other entries stay, and every object that
    existed, the node registered before under that name included, stays in
    the store as it was, with its parent and children. *)
Theorem root_declaration_replaces_entry (st : state) (r : row) (c : string) :
  PyStr.contains "->" (process r) = true →
  parse_relation (process r) = Ok ("", c) →
  ∃ st',
    structure_row st r = Ok st' ∧
    nodes st' !! c = Some (length (heap st)) ∧
    heap st !! length (heap st) = None ∧
    heap st' !! length (heap st) = Some (bare c) ∧
    (∀ nm, nm ≠ c → nodes st' !! nm = nodes st !! nm) ∧
    (∀ a n, heap st !! a = Some n → heap st' !! a = Some n).
Proof.
  intros Hx Hparse. unfold structure_row.
  rewrite skip_condition, Hx. simpl.
  unfold parse_relation in Hparse. rewrite Hparse. simpl.
  eexists. split; [done|]. simpl.
  split; [apply lookup_insert_eq|].
  split; [by apply lookup_ge_None_2|].
  split; [apply lookup_snoc_Some; by right|].
  split.
  - intros nm Hne. by apply lookup_insert_ne.
  - intros a n. apply lookup_app_l_Some.
Qed.

Lemma root_declaration_replaces_entry_witness :
  ∃ st st',
    structure_pass [rel "-> R"; rel "R -> A"] = Ok st ∧
    structure_row st (rel "-> A") = Ok st' ∧
    nodes st' !! "A" = Some (length (heap st)) ∧
    heap st !! length (heap st) = None ∧
    heap st' !! length (heap st) = Some (bare "A") ∧
    (∀ nm, nm ≠ "A" → nodes st' !! nm = nodes st !! nm) ∧
    (∀ a n, heap st !! a = Some n → heap st' !! a = Some n).
Proof.
  eexists.
  destruct (root_declaration_replaces_entry
              {| nodes := <["A" := 1]> (<["R" := 0]> ∅);
                 heap := [with_children (bare "R") [1];
                          with_parent (bare "A") (Some 0)] |}
              (rel "-> A") "A") as (st' & H);
    [reflexivity..|].
  exists st'. split; [vm_compute; reflexivity|exact H].
Defined.

(** C3, as stated, fails: after [-> R], [R -> A], [A -> C] the row [-> A]
    changes the registry entry, but the node registered before keeps its
    parent and its child, and stays among the children of [R]. *)
Lemma root_declaration_links_counterexample :
  ∃ st st' n nr nc,
    structure_pass [rel "-> R"; rel "R -> A"; rel "A -> C"] = Ok st ∧
    nodes st !! "A" = Some 1 ∧
    structure_row st (rel "-> A") = Ok st' ∧
    nodes st' !! "A" = Some 3 ∧
    heap st' !! 1 = Some n ∧ parent n = Some 0 ∧ children n = [2] ∧
    heap st' !! 0 = Some nr ∧ children nr = [1] ∧
    heap st' !! 2 = Some nc ∧ parent nc = Some 1.
Proof.
  do 5 eexists.
  split; [vm_compute; reflexivity|].
  split; [vm_compute; reflexivity|].
  split; [vm_compute; reflexivity|].
  split; [vm_compute; reflexivity|].
  split; [vm_compute; reflexivity|]. do 2 (split; [done|]).
  split; [vm_compute; reflexivity|]. split; [done|].
  split; [vm_compute; reflexivity|]. done.
Qed.

(** ** Rows without a relation *)

Lemma attribute_rows_raise (rows : list row) (r : row) (st : state) :
  state_wf st → r ∈ rows → (∀ st', raised (attribute_row st' r)) →
  raised (for_rows attribute_row rows st).
Proof.
  intros Hwf Hr Hraise. revert st Hwf.
  induction rows as [|r' rows IH]; intros st Hwf.
  { by apply elem_of_nil in Hr. }
  simpl. assert (H := attribute_row_effect st r' Hwf).
  destruct (attribute_row st r') as [st1|e|] eqn:E; simpl;
    [|by exists e|done].
  apply elem_of_cons in Hr as [->|Hr].
  - destruct (Hraise st) as [e He]. congruence.
  - apply IH; [done|].
    destruct H as (Hn & Hsk & _). by apply (state_wf_skeleton st).
Qed.

(** C6, as the code has it.  A row whose process field holds no "->"
    once its spaces are removed makes the second loop raise IndexError
    when it comes to it, and the build fails whenever such a row is part
    of the input. *)
Theorem relationless_row_is_fatal (rows : list row) (r : row) :
  r ∈ rows →
  PyStr.contains "->" (strip_process (process r)) = false →
  (∀ st, attribute_row st r = Raise IndexError) ∧ raised (build_tree rows).
Proof.
  intros Hr Hx.
  assert (Hrow : ∀ st, attribute_row st r = Raise IndexError).
  { intros st. unfold attribute_row.
    change (split_process (strip_process (process r)))
      with (parse_relation (process r)).
    by rewrite parse_without_arrow. }
  split; [done|]. unfold build_tree, run_passes.
  assert (H1 := structure_pass_effect rows).
  destruct (structure_pass rows) as [st1|e|]; simpl; [|by exists e|done].
  destruct (attribute_rows_raise rows r st1) as [e ->]; [apply H1|done| |].
  - intros st'. exists IndexError. apply Hrow.
  - by exists e.
Qed.

Lemma relationless_row_is_fatal_witness :
  (∀ st, attribute_row st (rel "a comment") = Raise IndexError) ∧
  raised (build_tree [rel "-> A"; rel "a comment"; rel "A -> B"]).
Proof.
  apply (relationless_row_is_fatal
           [rel "-> A"; rel "a comment"; rel "A -> B"] (rel "a comment")).
  - set_solver.
  - reflexivity.
Defined.

(** C6, as stated, fails: the process field "A- >B" holds no "->", the
    first loop skips the row, and yet the second loop handles it as the
    relation from [A] to [B] and the build succeeds. *)
Lemma spaced_arrow_counterexample :
  PyStr.contains "->" "A- >B" = false ∧
  (∀ st, structure_row st (rel "A- >B") = Ok st) ∧
  ∃ t, build_tree spaced_rows = Ok t.
Proof.
  split; [reflexivity|]. split; [done|].
  eexists. vm_compute. reflexivity.
Qed.

(** ** Root validation *)

Lemma roots_among_spec (h : list node) (l : list addr) :
  (∀ a, a ∈ l → is_Some (h !! a)) →
  ∃ rs, roots_among h l = Ok rs ∧
        (∀ a, a ∈ rs ↔ a ∈ l ∧ ∃ n, h !! a = Some n ∧ parent n = None) ∧
        (NoDup l → NoDup rs).
Proof.
  induction l as [|a l IH]; intros Hl.
  { exists []. split; [done|]. split; [|done].
    intros a. split; [by intros ?%elem_of_nil|by intros [?%elem_of_nil _]]. }
  destruct IH as (rs & Hrs & Hin & Hnd).
  { intros a' Ha'. apply Hl. by right. }
  destruct (Hl a) as [n Hn]; [by left|].
  simpl. rewrite (get_Some h a n Hn), Hrs. simpl.
  eexists. split; [done|]. case_bool_decide as Hroot; split.
  - intros x. rewrite !elem_of_cons, Hin. split.
    + intros [->|[? ?]]; [|by auto]. split; [by left|by exists n].
    + intros [[->|?] ?]; [by left|by auto].
  - intros [Hnot Hnd']%NoDup_cons. apply NoDup_cons. split; [|by auto].
    rewrite Hin. by intros [? _].
  - intros x. rewrite elem_of_cons, Hin. split.
    + intros [? ?]. by auto.
    + intros [[->|?] (n' & Hn' & Hpar)]; [congruence|]. split; [done|].
      by exists n'.
  - intros [_ ?]%NoDup_cons. by auto.
Qed.

Lemma roots_spec (st : state) :
  state_wf st →
  ∃ rs, roots st = Ok rs ∧ NoDup rs ∧
        ∀ a, a ∈ rs ↔ rootless_registered st a.
Proof.
  intros Hwf. unfold roots.
  destruct (roots_among_spec (heap st) (map_to_list (nodes st)).*2)
    as (rs & Hrs & Hin & Hnd).
  { intros a ([nm a'] & -> & Ha)%list_elem_of_fmap.
    apply elem_of_map_to_list in Ha.
    destruct (wf_nodes st Hwf nm a' Ha) as (n & Hn & _). by exists n. }
  exists rs. split; [done|]. split.
  - apply Hnd. apply NoDup_fmap_2_strong; [|apply NoDup_map_to_list].
    intros [nm1 a1] [nm2 a2] H1%elem_of_map_to_list H2%elem_of_map_to_list.
    simpl. intros <-.
    destruct (wf_nodes st Hwf nm1 a1 H1) as (n1 & Hn1 & Hname1).
    destruct (wf_nodes st Hwf nm2 a1 H2) as (n2 & Hn2 & Hname2).
    f_equal. congruence.
  - intros a. rewrite Hin. unfold rootless_registered. split.
    + intros [([nm a'] & -> & Ha)%list_elem_of_fmap (n & Hn & Hpar)].
      apply elem_of_map_to_list in Ha. by exists nm, n.
    + intros (nm & n & Ha & Hn & Hpar). split; [|by exists n].
      apply list_elem_of_fmap. exists (nm, a).
      split; [done|by apply elem_of_map_to_list].
Qed.

(** The build returns a tree or raises: the model never gets stuck. *)
Lemma build_tree_not_stuck (rows : list row) : build_tree rows ≠ Stuck.
Proof.
  unfold build_tree. assert (H := run_passes_effect rows).
  destruct (run_passes rows) as [st|e|]; simpl; [|done..].
  destruct H as [Hwf _].
  destruct (roots_spec st Hwf) as (rs & Hrs & _).
  unfold select_root. rewrite Hrs. simpl.
  case_decide; [done|]. by destruct rs.
Qed.

(** C1, as the code has it.  Once both loops are through, the nodes that
    the registry holds and that have no parent decide the outcome: when
    there is exactly one, it is returned as the root of the tree; when there
    are two or more, the build raises ValueError "Multiple roots
    detected...".  A node that a root declaration has pushed out of the
    registry is not counted. *)
Theorem root_validation (rows : list row) (st : state) :
  run_passes rows = Ok st →
  (∀ r, (∀ a, rootless_registered st a ↔ a = r) →
        build_tree rows = Ok {| root := r; store := heap st |}) ∧
  (∀ a b, a ≠ b → rootless_registered st a → rootless_registered st b →
          build_tree rows = Raise (ValueError "Multiple roots detected...")).
Proof.
  intros Hrun. assert (H := run_passes_effect rows). rewrite Hrun in H.
  destruct H as [Hwf _].
  destruct (roots_spec st Hwf) as (rs & Hrs & Hnd & Hin).
  unfold build_tree, select_root. rewrite Hrun. simpl. rewrite Hrs. simpl.
  split.
  - intros r Hone.
    assert (Hr : r ∈ rs) by (by apply Hin, Hone).
    destruct rs as [|r1 [|r2 rs]].
    + by apply elem_of_nil in Hr.
    + apply list_elem_of_singleton in Hr as ->.
      by rewrite decide_False by (simpl; lia).
    + exfalso. apply NoDup_cons in Hnd as [Hnot _]. apply Hnot.
      assert (r1 = r) as -> by (apply Hone, Hin; by left).
      assert (r2 = r) as -> by (apply Hone, Hin; right; by left).
      by left.
  - intros a b Hne Ha%Hin Hb%Hin.
    destruct rs as [|r1 [|r2 rs]].
    + by apply elem_of_nil in Ha.
    + apply list_elem_of_singleton in Ha, Hb. congruence.
    + by rewrite decide_True by (simpl; lia).
Qed.

(** On [moved_rows] the node of [A] is the one registered node without
    parent and is returned; on [A -> B], [X -> B] the nodes of [A] and [X]
    are two of them and the build raises. *)
Lemma root_validation_witness :
  (∃ st, run_passes moved_rows = Ok st ∧
         build_tree moved_rows = Ok {| root := 0; store := heap st |}) ∧
  build_tree [rel "A -> B"; rel "X -> B"]
  = Raise (ValueError "Multiple roots detected...").
Proof.
  split.
  - eassert (Hrun : run_passes moved_rows = Ok _)
      by (vm_compute; reflexivity).
    eexists. split; [exact Hrun|].
    apply (proj1 (root_validation moved_rows _ Hrun) 0).
    intros a. split.
    + intros (nm & n & _ & Hn & Hpar).
      destruct a as [|[|[|[|a]]]]; [done|..];
        vm_compute in Hn; [injection Hn as <-; discriminate Hpar..|].
      discriminate Hn.
    + intros ->. exists "A". eexists.
      split; [vm_compute; reflexivity|].
      split; [vm_compute; reflexivity|reflexivity].
  - eassert (Hrun : run_passes [rel "A -> B"; rel "X -> B"] = Ok _)
      by (vm_compute; reflexivity).
    apply (proj2 (root_validation _ _ Hrun) 0 2).
    + discriminate.
    + exists "A". eexists. split; [vm_compute; reflexivity|].
      split; [vm_compute; reflexivity|reflexivity].
    + exists "X". eexists. split; [vm_compute; reflexivity|].
      split; [vm_compute; reflexivity|reflexivity].
Defined.

(** C1, as stated, fails on nodes outside the registry.  After [A -> B],
    [-> A] the store holds two nodes without parent, the first node named
    [A] and the one that replaced it, and the build returns the second.
    After [A -> B], [-> A], [B -> A] the first node named [A] is the only
    node without parent, and the build does not return it: it raises
    IndexError. *)
Lemma root_count_counterexample :
  (∃ t n0 n2,
     build_tree [rel "A -> B"; rel "-> A"] = Ok t ∧ root t = 2 ∧
     store t !! 0 = Some n0 ∧ parent n0 = None ∧
     store t !! 2 = Some n2 ∧ parent n2 = None) ∧
  (∃ st n0,
     run_passes [rel "A -> B"; rel "-> A"; rel "B -> A"] = Ok st ∧
     heap st !! 0 = Some n0 ∧ parent n0 = None ∧
     (∀ a n, heap st !! a = Some n → parent n = None → a = 0) ∧
     build_tree [rel "A -> B"; rel "-> A"; rel "B -> A"]
     = Raise IndexError).
Proof.
  split.
  - do 3 eexists. split; [vm_compute; reflexivity|]. split; [done|].
    split; [vm_compute; reflexivity|]. split; [done|].
    split; [vm_compute; reflexivity|done].
  - do 2 eexists. split; [vm_compute; reflexivity|].
    split; [vm_compute; reflexivity|]. split; [done|].
    split; [|vm_compute; reflexivity].
    intros a n Hn Hpar.
    destruct a as [|[|[|a]]]; [done|..];
      vm_compute in Hn; [injection Hn as <-; discriminate Hpar..|].
    discriminate Hn.
Qed.

(** ** Level-order traversal *)

Lemma path_up_lookup (h : list node) (a : addr) (l : list addr) :
  path_up h a l → is_Some (h !! a).
Proof. destruct 1; eauto. Qed.

Lemma next_level_spec (h : list node) (cur : list addr) :
  (∀ x, x ∈ cur → is_Some (h !! x)) →
  ∃ nxt, next_level h cur = Ok nxt ∧
         ∀ y, y ∈ nxt ↔ ∃ x n, x ∈ cur ∧ h !! x = Some n ∧ y ∈ children n.
Proof.
  induction cur as [|a cur IH]; intros Hcur.
  { exists []. split; [done|]. intros y. split.
    - by intros ?%elem_of_nil.
    - by intros (x & n & ?%elem_of_nil & _). }
  destruct IH as (rest & Hrest & Hin).
  { intros x Hx. apply Hcur. by right. }
  destruct (Hcur a) as [n Hn]; [by left|].
  simpl. rewrite (get_Some h a n Hn), Hrest. simpl.
  eexists. split; [done|]. intros y. rewrite elem_of_app, Hin. split.
  - intros [Hy|(x & nx & Hx & Hnx & Hy)].
    + exists a, n. split; [by left|done].
    + exists x, nx. split; [by right|done].
  - intros (x & nx & [->|Hx]%elem_of_cons & Hnx & Hy).
    + left. congruence.
    + right. by exists x, nx.
Qed.

(** The children of nodes whose chain has [k] nodes have chains of [S k]
    nodes. *)
Lemma next_level_depth (h : list node) (cur nxt : list addr) (k : nat) :
  heap_wf h →
  (∀ x, x ∈ cur → ∃ l, path_up h x l ∧ length l = k) →
  (∀ y, y ∈ nxt ↔ ∃ x n, x ∈ cur ∧ h !! x = Some n ∧ y ∈ children n) →
  ∀ y, y ∈ nxt → ∃ l, path_up h y l ∧ length l = S k.
Proof.
  intros Hwf Hcur Hnxt y (x & n & Hx & Hn & Hy)%Hnxt.
  destruct (Hcur x Hx) as (l & Hl & Hlen).
  destruct (wf_child h Hwf x n y Hn Hy) as (ny & Hny & Hpar).
  exists (y :: l). split; [by eapply path_up_step|by simpl; rewrite Hlen].
Qed.

(** The traversal from a level whose nodes have chains of [k] nodes: with
    fuel for the levels that can follow it returns a list that starts with
    the level, continues with the next one, lists nodes by chains that never
    get shorter, and holds the children of every node it holds. *)
Lemma level_order_spec (h : list node) (fuel k : nat) (cur : list addr) :
  heap_wf h →
  (∀ x, x ∈ cur → ∃ l, path_up h x l ∧ length l = k) →
  length h < fuel + k →
  ∃ out,
    level_order fuel h cur = Ok out ∧
    ((cur = [] ∧ out = []) ∨
     ∃ nxt rest, next_level h cur = Ok nxt ∧ out = cur ++ nxt ++ rest) ∧
    (∀ x, x ∈ out → ∃ l, path_up h x l ∧ k ≤ length l) ∧
    (∀ i j x y lx ly,
       i ≤ j → out !! i = Some x → out !! j = Some y →
       path_up h x lx → path_up h y ly → length lx ≤ length ly) ∧
    (∀ x n c, x ∈ out → h !! x = Some n → c ∈ children n → c ∈ out).
Proof.
  intros Hwf. revert k cur.
  induction fuel as [|fuel IH]; intros k cur Hcur Hfuel.
  - destruct cur as [|a cur].
    + exists []. split; [done|]. split; [by left|].
      split; [by intros x ?%elem_of_nil|].
      split; [by intros i j x y lx ly _ ?|by intros x n c ?%elem_of_nil].
    + destruct (Hcur a) as (l & Hl & Hlen); [by left|].
      apply path_up_length in Hl. simpl in Hfuel. lia.
  - destruct cur as [|a cur].
    + exists []. split; [done|]. split; [by left|].
      split; [by intros x ?%elem_of_nil|].
      split; [by intros i j x y lx ly _ ?|by intros x n c ?%elem_of_nil].
    + destruct (next_level_spec h (a :: cur)) as (nxt & Hnxt & Hin).
      { intros x (l & Hl & _)%Hcur. by eapply path_up_lookup. }
      assert (Hdeep := next_level_depth h (a :: cur) nxt k Hwf Hcur Hin).
      destruct (IH (S k) nxt Hdeep) as (out' & Hout' & Hshape & Hge & Hmono & Hclosed);
        [lia|].
      assert (Hpre : ∃ rest, out' = nxt ++ rest).
      { destruct Hshape as [[-> ->]|(n2 & rest & _ & ->)]; [by exists []|].
        by exists (n2 ++ rest). }
      destruct Hpre as [rest ->].
      exists ((a :: cur) ++ nxt ++ rest).
      split; [cbn [level_order]; rewrite Hnxt; simpl; by rewrite Hout'|].
      split; [|split; [|split]].
      * right. by exists nxt, rest.
      * intros x [Hx|Hx]%elem_of_app.
        -- destruct (Hcur x Hx) as (l & Hl & Hlen). exists l. split; [done|lia].
        -- destruct (Hge x Hx) as (l & Hl & Hlen). exists l. split; [done|lia].
      * intros i j x y lx ly Hij Hi Hj Hlx Hly.
        apply lookup_app_Some in Hi as [Hi|[Hi1 Hi2]];
          apply lookup_app_Some in Hj as [Hj|[Hj1 Hj2]].
        -- destruct (Hcur x) as (l1 & Hl1 & Hlen1);
             [by eapply list_elem_of_lookup_2|].
           destruct (Hcur y) as (l2 & Hl2 & Hlen2);
             [by eapply list_elem_of_lookup_2|].
           rewrite (path_up_det h x lx l1 Hlx Hl1).
           rewrite (path_up_det h y ly l2 Hly Hl2). lia.
        -- destruct (Hcur x) as (l1 & Hl1 & Hlen1);
             [by eapply list_elem_of_lookup_2|].
           destruct (Hge y) as (l2 & Hl2 & Hlen2);
             [by eapply list_elem_of_lookup_2|].
           rewrite (path_up_det h x lx l1 Hlx Hl1).
           rewrite (path_up_det h y ly l2 Hly Hl2). lia.
        -- apply lookup_lt_Some in Hj. lia.
        -- apply (Hmono (i - length (a :: cur)) (j - length (a :: cur)) x y);
             [lia|done..].
      * intros x n c [Hx|Hx]%elem_of_app Hn Hc; apply elem_of_app; right.
        -- apply elem_of_app. left. apply Hin. by exists x, n.
        -- by apply (Hclosed x n c).
Qed.

Lemma traversals_replicate (k : nat) (t : tree) :
  traversals k t = replicate k (traverse_tree t).
Proof.
  unfold traversals. generalize 0.
  induction k as [|k IH]; intros s; [done|]. simpl. by rewrite IH.
Qed.

Lemma build_tree_root (rows : list row) (t : tree) :
  build_tree rows = Ok t →
  heap_wf (store t) ∧
  ∃ nr, store t !! root t = Some nr ∧ parent nr = None.
Proof.
  unfold build_tree. assert (H := run_passes_effect rows).
  destruct (run_passes rows) as [st|e|]; simpl; [|done..].
  destruct H as [Hwf _].
  destruct (roots_spec st Hwf) as (rs & Hrs & _ & Hin).
  unfold select_root. rewrite Hrs. simpl.
  case_decide; [done|]. destruct rs as [|r rs]; [done|]. simpl.
  intros [= <-]. simpl. split; [apply Hwf|].
  destruct (proj1 (Hin r)) as (nm & n & _ & Hn & Hpar); [by left|].
  by exists n.
Qed.

(** C8.  On every tree that [build_tree] returns the traversal returns a
    list: it starts with the root, followed by the children of the root in
    their order; a node that is less deep than another comes before it, so
    the children of a node come before its grandchildren; the children of
    every listed node are listed; and asking for the traversal again, any
    number of times, gives the same list. *)
Theorem traverse_tree_level_order (rows : list row) (t : tree) :
  build_tree rows = Ok t →
  ∃ out nr rest,
    traverse_tree t = Ok out ∧
    store t !! root t = Some nr ∧ out = root t :: children nr ++ rest ∧
    (∀ x, x ∈ out → ∃ d, depth (store t) x d) ∧
    (∀ i j x y dx dy,
       out !! i = Some x → out !! j = Some y →
       depth (store t) x dx → depth (store t) y dy → dx < dy → i < j) ∧
    (∀ x n c, x ∈ out → store t !! x = Some n → c ∈ children n → c ∈ out) ∧
    (∀ a na c nc g i j,
       store t !! a = Some na → c ∈ children na →
       store t !! c = Some nc → g ∈ children nc →
       out !! i = Some c → out !! j = Some g → i < j) ∧
    ∀ k, traversals k t = replicate k (Ok out).
Proof.
  intros (Hwf & nr & Hnr & Hroot)%build_tree_root.
  destruct (level_order_spec (store t) (S (length (store t))) 1 [root t] Hwf)
    as (out & Hout & Hshape & Hge & Hmono & Hclosed).
  { intros x ->%list_elem_of_singleton. exists [root t].
    split; [by eapply path_up_root|done]. }
  { lia. }
  assert (Hdepth : ∀ i j x y dx dy,
    out !! i = Some x → out !! j = Some y →
    depth (store t) x dx → depth (store t) y dy → dx < dy → i < j).
  { intros i j x y dx dy Hi Hj (lx & Hlx & Hdx) (ly & Hly & Hdy) Hlt.
    apply Nat.lt_nge. intros Hji.
    assert (H := Hmono j i y x ly lx Hji Hj Hi Hly Hlx). lia. }
  destruct Hshape as [[? _]|(nxt & rest & Hnxt & ->)]; [done|].
  simpl in Hnxt. rewrite (get_Some _ _ _ Hnr) in Hnxt. simpl in Hnxt.
  injection Hnxt as <-. rewrite app_nil_r in *.
  exists ([root t] ++ children nr ++ rest), nr, rest.
  split; [done|]. split; [done|]. split; [done|]. split; [|split; [|split; [|split]]].
  - intros x (l & Hl & Hlen)%Hge.
    destruct l as [|a l]; [simpl in Hlen; lia|].
    exists (length l). by exists (a :: l).
  - done.
  - done.
  - intros a na c nc g i j Ha Hc Hnc Hg Hi Hj.
    destruct (wf_path _ Hwf c nc Hnc) as [lc Hlc].
    destruct (wf_child _ Hwf c nc g Hnc Hg) as (ng & Hng & Hpar).
    destruct (path_up_nonempty _ _ _ Hlc) as [lc' ->].
    apply (Hdepth i j c g (length lc') (S (length lc'))); [done..| | |lia].
    + by exists (c :: lc').
    + exists (g :: c :: lc'). split; [by eapply path_up_step|done].
  - intros k. rewrite traversals_replicate. unfold traverse_tree.
    by rewrite Hout.
Qed.

Lemma traverse_tree_level_order_witness :
  ∃ t out nr rest,
    build_tree redeclared_rows = Ok t ∧
    traverse_tree t = Ok out ∧
    store t !! root t = Some nr ∧ out = root t :: children nr ++ rest ∧
    (∀ x, x ∈ out → ∃ d, depth (store t) x d) ∧
    (∀ i j x y dx dy,
       out !! i = Some x → out !! j = Some y →
       depth (store t) x dx → depth (store t) y dy → dx < dy → i < j) ∧
    (∀ x n c, x ∈ out → store t !! x = Some n → c ∈ children n → c ∈ out) ∧
    (∀ a na c nc g i j,
       store t !! a = Some na → c ∈ children na →
       store t !! c = Some nc → g ∈ children nc →
       out !! i = Some c → out !! j = Some g → i < j) ∧
    ∀ k, traversals k t = replicate k (Ok out).
Proof.
  eassert (Hbuild : build_tree redeclared_rows = Ok _)
    by (vm_compute; reflexivity).
  destruct (traverse_tree_level_order redeclared_rows _ Hbuild)
    as (out & nr & rest & H).
  eexists. exists out, nr, rest. split; [exact Hbuild|exact H].
Defined.

(** * Further properties of the builder *)

(** ** The registry *)

(** X1.  [get_node] gets or creates: afterwards the name is registered with
    the node that is returned, a second call returns the same node and
    changes nothing, the other names keep their entries and the objects that
    existed are unchanged. *)
Theorem get_node_get_or_create (st st' : state) (nm : string) (a : addr) :
  get_node st nm = (st', a) →
  nodes st' !! nm = Some a ∧
  get_node st' nm = (st', a) ∧
  (∀ nm', nm' ≠ nm → nodes st' !! nm' = nodes st !! nm') ∧
  (∀ x n, heap st !! x = Some n → heap st' !! x = Some n) ∧
  (∀ a', nodes st !! nm = Some a' → a = a' ∧ st' = st) ∧
  (nodes st !! nm = None →
   heap st !! a = None ∧ heap st' !! a = Some (bare nm)).
Proof.
  unfold get_node. destruct (nodes st !! nm) as [a0|] eqn:E.
  - intros [= <- <-]. rewrite E.
    split; [done|]. split; [done|]. split; [done|]. split; [done|].
    split; [|done]. by intros a' [= <-].
  - simpl. intros [= <- <-]. simpl. rewrite lookup_insert_eq.
    split; [done|]. split; [done|].
    split; [intros nm' Hne; by rewrite lookup_insert_ne|].
    split; [intros x n; apply lookup_app_l_Some|].
    split; [done|]. intros _.
    split; [by apply lookup_ge_None_2|apply lookup_snoc_Some; by right].
Qed.

Lemma get_node_get_or_create_witness :
  ∃ st' a,
    get_node initial "A" = (st', a) ∧
    nodes st' !! "A" = Some a ∧
    get_node st' "A" = (st', a) ∧
    (∀ nm', nm' ≠ "A" → nodes st' !! nm' = nodes initial !! nm') ∧
    (∀ x n, heap initial !! x = Some n → heap st' !! x = Some n) ∧
    (∀ a', nodes initial !! "A" = Some a' → a = a' ∧ st' = initial) ∧
    (nodes initial !! "A" = None →
     heap initial !! a = None ∧ heap st' !! a = Some (bare "A")).
Proof.
  eexists. eexists.
  eassert (H : get_node initial "A" = _) by reflexivity.
  split; [exact H|]. exact (get_node_get_or_create _ _ _ _ H).
Defined.

Lemma structure_row_registers (st st' : state) (r : row) (p c : string) :
  state_wf st → structure_row st r = Ok st' →
  PyStr.contains "->" (process r) = true →
  parse_relation (process r) = Ok (p, c) →
  (∀ nm, is_Some (nodes st !! nm) → is_Some (nodes st' !! nm)) ∧
  is_Some (nodes st' !! c) ∧ (p ≠ "" → is_Some (nodes st' !! p)).
Proof.
  intros Hwf Hstep Hx Hparse. unfold structure_row in Hstep.
  rewrite skip_condition, Hx in Hstep. simpl in Hstep.
  unfold parse_relation in Hparse. rewrite Hparse in Hstep. simpl in Hstep.
  case_bool_decide as Hp.
  - simpl in Hstep. injection Hstep as <-. simpl.
    split; [|split; [by rewrite lookup_insert_eq|done]].
    intros nm Hnm. rewrite lookup_insert. by case_decide.
  - destruct (get_node st p) as [st1 ap] eqn:E1.
    destruct (get_node st1 c) as [st2 ac] eqn:E2.
    destruct (get_node_grows _ _ _ _ Hwf E1) as [G1 Hap].
    assert (Hwf1 : state_wf st1) by apply G1.
    destruct (get_node_grows _ _ _ _ Hwf1 E2) as [G2 Hac].
    destruct (set_parent (heap st2) ac ap) as [h'| |]; [|done..].
    simpl in Hstep. injection Hstep as <-. simpl.
    destruct G1 as (_ & _ & _ & Hd1 & _). destruct G2 as (_ & _ & _ & Hd2 & _).
    split; [|split; [by eexists|]].
    + intros nm [a Ha]. exists a. auto.
    + intros _. exists ap. auto.
Qed.

Lemma structure_rows_registered (rows : list row) (st st' : state) :
  state_wf st → for_rows structure_row rows st = Ok st' →
  (∀ nm, is_Some (nodes st !! nm) → is_Some (nodes st' !! nm)) ∧
  ∀ r p c, r ∈ rows → PyStr.contains "->" (process r) = true →
           parse_relation (process r) = Ok (p, c) →
           is_Some (nodes st' !! c) ∧ (p ≠ "" → is_Some (nodes st' !! p)).
Proof.
  revert st. induction rows as [|r rows IH]; intros st Hwf Hrun.
  { simpl in Hrun. injection Hrun as <-. split; [done|].
    intros r p c Hr. by apply elem_of_nil in Hr. }
  simpl in Hrun. assert (Hr := structure_row_effect st r Hwf).
  destruct (structure_row st r) as [st1|e|] eqn:Hstep; [|done..].
  simpl in Hrun. destruct Hr as [Hwf1 Hr].
  destruct (IH st1 Hwf1 Hrun) as [Hmono Hrows].
  assert (Hmono1 : ∀ nm, is_Some (nodes st !! nm) → is_Some (nodes st1 !! nm)).
  { destruct Hr as [[_ ->]|(Hx & p & c & Hparse & _)]; [done|].
    by apply (structure_row_registers st st1 r p c). }
  split; [auto|].
  intros r' p c [->|Hr']%elem_of_cons Hx Hparse; [|by eapply Hrows].
  destruct (structure_row_registers st st1 r p c) as (_ & Hc & Hp); [done..|].
  split; [auto|]. intros Hne. auto.
Qed.

(** X2.  When the first loop is through, the child of every relation row
    is registered, and so is its parent when the parent segment is not
    empty: the registry never loses a name. *)
Theorem structure_pass_registers (rows : list row) (st : state) (r : row)
  (p c : string) :
  structure_pass rows = Ok st → r ∈ rows →
  PyStr.contains "->" (process r) = true →
  parse_relation (process r) = Ok (p, c) →
  is_Some (nodes st !! c) ∧ (p ≠ "" → is_Some (nodes st !! p)).
Proof.
  intros Hrun Hr Hx Hparse.
  destruct (structure_rows_registered rows initial st initial_wf Hrun)
    as [_ H].
  by apply (H r p c).
Qed.

Lemma structure_pass_registers_witness :
  ∃ st,
    structure_pass redeclared_rows = Ok st ∧
    is_Some (nodes st !! "C") ∧ ("A" ≠ "" → is_Some (nodes st !! "A")).
Proof.
  eassert (H : structure_pass redeclared_rows = Ok _)
    by (vm_compute; reflexivity).
  eexists. split; [exact H|].
  apply (structure_pass_registers redeclared_rows _ (rel "A -> C") "A" "C" H).
  - set_solver.
  - reflexivity.
  - reflexivity.
Defined.

(** ** Loops and repeated relations *)

Lemma get_node_registered (st : state) (nm : string) (a : addr) :
  nodes st !! nm = Some a → get_node st nm = (st, a).
Proof. unfold get_node. by intros ->. Qed.

(** X3.  A relation row whose parent and child are the same name raises
    LoopError, whatever was built before. *)
Theorem self_relation_raises (st : state) (r : row) (p : string) :
  state_wf st →
  PyStr.contains "->" (process r) = true →
  parse_relation (process r) = Ok (p, p) → p ≠ "" →
  structure_row st r = Raise LoopError.
Proof.
  intros Hwf Hx Hparse Hp. unfold structure_row.
  rewrite skip_condition, Hx. simpl.
  unfold parse_relation in Hparse. rewrite Hparse. simpl.
  rewrite bool_decide_eq_false_2 by done.
  destruct (get_node st p) as [st1 a] eqn:E1.
  destruct (get_node_grows _ _ _ _ Hwf E1) as [G1 Ha].
  rewrite (get_node_registered st1 p a Ha).
  assert (Hwf1 : state_wf st1) by apply G1.
  destruct (wf_nodes st1 Hwf1 p a Ha) as (n & Hn & _).
  unfold set_parent. rewrite (get_Some _ _ _ Hn). simpl.
  destruct (wf_path _ (wf_heap st1 Hwf1) a n Hn) as [l Hl].
  rewrite decide_False by (by eapply no_self_parent).
  by rewrite decide_True.
Qed.

Lemma self_relation_raises_witness :
  structure_row initial (rel "A -> A") = Raise LoopError.
Proof.
  apply (self_relation_raises initial (rel "A -> A") "A").
  - apply initial_wf.
  - reflexivity.
  - reflexivity.
  - discriminate.
Defined.

(** X4.  A relation row that would put a node under one of its own
    descendants raises LoopError: when the node registered as the child lies
    on the chain that leads from the node registered as the parent up to its
    root, the row is refused. *)
Theorem cycle_raises (st : state) (r : row) (p c : string) (ap ac : addr)
  (l : list addr) :
  state_wf st →
  PyStr.contains "->" (process r) = true →
  parse_relation (process r) = Ok (p, c) → p ≠ "" →
  nodes st !! p = Some ap → nodes st !! c = Some ac →
  path_up (heap st) ap l → ac ∈ l →
  structure_row st r = Raise LoopError.
Proof.
  intros Hwf Hx Hparse Hp Hap Hac Hl Hin. unfold structure_row.
  rewrite skip_condition, Hx. simpl.
  unfold parse_relation in Hparse. rewrite Hparse. simpl.
  rewrite bool_decide_eq_false_2 by done.
  rewrite (get_node_registered st p ap Hap).
  rewrite (get_node_registered st c ac Hac).
  destruct (wf_nodes st Hwf c ac Hac) as (nc & Hnc & _).
  unfold set_parent. rewrite (get_Some _ _ _ Hnc). simpl.
  rewrite decide_False.
  - destruct (decide (ap = ac)); [done|].
    rewrite (on_path_reverse_spec _ _ ac ap l Hl)
      by (by eapply path_up_length).
    simpl. by rewrite bool_decide_eq_true_2.
  - intros Hpar.
    destruct (path_up_suffix _ ap l Hl ac Hin) as (l' & Hl' & Hlen).
    assert (E := path_up_det _ ac l' (ac :: l) Hl'
                   (path_up_step _ ac nc ap l Hnc Hpar Hl)).
    subst l'. simpl in Hlen. lia.
Qed.

Lemma cycle_raises_witness :
  ∃ st,
    structure_pass [rel "A -> B"; rel "B -> C"] = Ok st ∧
    structure_row st (rel "C -> A") = Raise LoopError.
Proof.
  eassert (H : structure_pass [rel "A -> B"; rel "B -> C"] = Ok _)
    by (vm_compute; reflexivity).
  eexists. split; [exact H|].
  assert (Hwf := structure_pass_effect [rel "A -> B"; rel "B -> C"]).
  rewrite H in Hwf. destruct Hwf as [Hwf _].
  apply (cycle_raises _ (rel "C -> A") "C" "A" 2 0 [2; 1; 0] Hwf).
  - reflexivity.
  - reflexivity.
  - discriminate.
  - vm_compute. reflexivity.
  - vm_compute. reflexivity.
  - eapply path_up_step; [vm_compute; reflexivity|reflexivity|].
    eapply path_up_step; [vm_compute; reflexivity|reflexivity|].
    eapply path_up_root; [vm_compute; reflexivity|reflexivity].
  - set_solver.
Defined.

(** X5.  Repeating a relation that is in force changes nothing: when the
    node registered as the child already has the node registered as the
    parent for parent, the row leaves the state as it is. *)
Theorem repeated_relation_is_noop (st : state) (r : row) (p c : string)
  (ap ac : addr) (nc : node) :
  PyStr.contains "->" (process r) = true →
  parse_relation (process r) = Ok (p, c) → p ≠ "" →
  nodes st !! p = Some ap → nodes st !! c = Some ac →
  heap st !! ac = Some nc → parent nc = Some ap →
  structure_row st r = Ok st.
Proof.
  intros Hx Hparse Hp Hap Hac Hnc Hpar. unfold structure_row.
  rewrite skip_condition, Hx. simpl.
  unfold parse_relation in Hparse. rewrite Hparse. simpl.
  rewrite bool_decide_eq_false_2 by done.
  rewrite (get_node_registered st p ap Hap).
  rewrite (get_node_registered st c ac Hac).
  unfold set_parent. rewrite (get_Some _ _ _ Hnc). simpl.
  rewrite decide_True by done. simpl. by destruct st.
Qed.

Lemma repeated_relation_is_noop_witness :
  ∃ st,
    structure_pass [rel "A -> B"] = Ok st ∧
    structure_row st (rel "A->B") = Ok st.
Proof.
  eassert (H : structure_pass [rel "A -> B"] = Ok _)
    by (vm_compute; reflexivity).
  eexists. split; [exact H|].
  eapply (repeated_relation_is_noop _ (rel "A->B") "A" "B" 0 1);
    [reflexivity|reflexivity|discriminate|vm_compute; reflexivity..].
Defined.

(** ** What the build can raise *)

Lemma params_dict_raise (segs : list string) (d : gmap string string)
  (e : exn) :
  params_dict segs d = Raise e → e = IndexError.
Proof.
  revert d. induction segs as [|seg segs IH]; intros d; [done|].
  simpl. unfold param_pair.
  destruct (PyStr.split "=" seg) as [|? [|? ?]]; simpl;
    [by intros [= <-]..|apply IH].
Qed.

Lemma split_process_raise (x : string) (e : exn) :
  split_process x = Raise e → e = IndexError.
Proof.
  unfold split_process.
  destruct (PyStr.split "->" x) as [|? [|? ?]]; [by intros [= <-]..|done].
Qed.

Lemma attribute_row_raise (st : state) (r : row) (e : exn) :
  attribute_row st r = Raise e → e = IndexError ∨ e = KeyError.
Proof.
  unfold attribute_row.
  destruct (split_process (strip_process (process r))) as [[p c]|e1|] eqn:E1;
    simpl; [|intros [= <-]; left; by eapply split_process_raise|done].
  destruct (nodes st !! c) as [a|]; simpl; [|intros [= <-]; by right].
  destruct (get (heap st) a) as [n| |] eqn:E2; simpl;
    [|by unfold get in E2; destruct (heap st !! a)|done].
  unfold split_params.
  destruct (params_dict _ _) as [kw|e3|] eqn:E3; simpl;
    [|intros [= <-]; left; by eapply params_dict_raise|done].
  destruct (parent n) as [b|]; simpl; [|done].
  unfold get. by destruct (heap st !! b).
Qed.

Lemma attribute_rows_raise_kind (rows : list row) (st : state) (e : exn) :
  for_rows attribute_row rows st = Raise e → e = IndexError ∨ e = KeyError.
Proof.
  revert st. induction rows as [|r rows IH]; intros st; [done|].
  simpl. destruct (attribute_row st r) as [st1|e1|] eqn:E; simpl.
  - apply IH.
  - intros [= <-]. by eapply attribute_row_raise.
  - done.
Qed.

Lemma select_root_raise (st : state) (e : exn) :
  state_wf st → select_root st = Raise e →
  (e = IndexError ∧ ∀ a, ¬ rootless_registered st a) ∨
  (e = ValueError "Multiple roots detected..." ∧
   ∃ a b, a ≠ b ∧ rootless_registered st a ∧ rootless_registered st b).
Proof.
  intros Hwf. destruct (roots_spec st Hwf) as (rs & Hrs & Hnd & Hin).
  unfold select_root. rewrite Hrs. simpl.
  destruct rs as [|r1 [|r2 rs]].
  - rewrite decide_False by (simpl; lia). intros [= <-]. left.
    split; [done|]. intros a Ha%Hin. by apply elem_of_nil in Ha.
  - by rewrite decide_False by (simpl; lia).
  - rewrite decide_True by (simpl; lia). intros [= <-]. right.
    split; [done|]. exists r1, r2.
    apply NoDup_cons in Hnd as [Hnot _].
    split; [intros ->; apply Hnot; by left|].
    split; apply Hin; [by left|right; by left].
Qed.

(** X6.  The build returns or raises, and every exception it raises comes
    from one of its three stages, each with exceptions of its own: the first
    loop raises LoopError only; the second loop raises IndexError or KeyError
    only; the root validation raises IndexError, and then no registered node
    is without parent, or ValueError "Multiple roots detected...", and then
    two registered nodes are. *)
Theorem build_tree_exceptions (rows : list row) :
  build_tree rows ≠ Stuck ∧
  (∀ e, build_tree rows = Raise e →
        structure_pass rows = Raise e ∨
        (∃ st1, structure_pass rows = Ok st1 ∧
                for_rows attribute_row rows st1 = Raise e) ∨
        (∃ st, run_passes rows = Ok st ∧ select_root st = Raise e)) ∧
  (∀ e, structure_pass rows = Raise e → e = LoopError) ∧
  (∀ st1 e, structure_pass rows = Ok st1 →
            for_rows attribute_row rows st1 = Raise e →
            e = IndexError ∨ e = KeyError) ∧
  (∀ st e, run_passes rows = Ok st → select_root st = Raise e →
           (e = IndexError ∧ ∀ a, ¬ rootless_registered st a) ∨
           (e = ValueError "Multiple roots detected..." ∧
            ∃ a b, a ≠ b ∧ rootless_registered st a ∧
                   rootless_registered st b)).
Proof.
  split; [apply build_tree_not_stuck|]. split; [|split; [|split]].
  - intros e. unfold build_tree, run_passes.
    destruct (structure_pass rows) as [st1|e1|] eqn:E1; simpl;
      [|intros [= <-]; by left|done].
    destruct (for_rows attribute_row rows st1) as [st|e2|] eqn:E2; simpl;
      [|intros [= <-]; right; left; by exists st1|done].
    destruct (select_root st) as [r|e3|] eqn:E3; simpl; [done| |done].
    intros [= <-]. right. right. by exists st.
  - intros e He. assert (H1 := structure_pass_effect rows).
    by rewrite He in H1.
  - intros st1 e _. apply attribute_rows_raise_kind.
  - intros st e Hrun. apply select_root_raise.
    assert (H := run_passes_effect rows). rewrite Hrun in H. apply H.
Qed.

(** ** The shape of the store *)

Lemma alloc_children_nodup (h : list node) (nm : string) :
  children_nodup h → children_nodup (h ++ [bare nm]).
Proof.
  intros Hnd a n [[_ Ha]|[_ <-]]%lookup_snoc_Some.
  - by apply (Hnd a).
  - apply NoDup_nil_2.
Qed.

Lemma get_node_children_nodup (st st' : state) (nm : string) (a : addr) :
  get_node st nm = (st', a) →
  children_nodup (heap st) → children_nodup (heap st').
Proof.
  unfold get_node. destruct (nodes st !! nm).
  - by intros [= <- <-].
  - simpl. intros [= <- <-]. apply alloc_children_nodup.
Qed.

Lemma set_parent_children_nodup (h h' : list node) (c p : addr)
  (nc np : node) :
  heap_wf h → children_nodup h → h !! c = Some nc → h !! p = Some np →
  set_parent h c p = Ok h' → children_nodup h'.
Proof.
  intros Hwf Hnd Hc Hp. unfold set_parent.
  rewrite (get_Some h c nc Hc). simpl.
  destruct (decide (parent nc = Some p)) as [|Hnew]; [by intros [= <-]|].
  destruct (decide (p = c)) as [|Hpc]; [done|].
  destruct (on_path_reverse (length h) h c p) as [[|]| |]; simpl; [done| |done..].
  destruct (set_parent_pointwise h c p nc np) as (h'' & -> & Hh'); [done..|].
  intros [= <-]. intros a n'. rewrite Hh'.
  destruct (h !! a) as [n|] eqn:Ha; [|done].
  intros [= <-]. assert (Hn := Hnd a n Ha).
  unfold reparent_node. repeat case_decide; simpl; [done| |by apply NoDup_filter|done].
  subst a. apply NoDup_app. split; [done|]. split; [|apply NoDup_singleton].
  intros y Hy ->%list_elem_of_singleton.
  destruct (wf_child h Hwf p n c Ha Hy) as (nc' & Hnc' & Hpar). congruence.
Qed.

Lemma structure_row_children_nodup (st st' : state) (r : row) :
  state_wf st → children_nodup (heap st) → structure_row st r = Ok st' →
  children_nodup (heap st').
Proof.
  intros Hwf Hnd. unfold structure_row.
  destruct (bool_decide (process r = "") || negb _); [by intros [= <-]|].
  destruct (split_process _) as [[p c]| |]; simpl; [|done..].
  case_bool_decide.
  - simpl. intros [= <-]. by apply alloc_children_nodup.
  - destruct (get_node st p) as [st1 ap] eqn:E1.
    destruct (get_node st1 c) as [st2 ac] eqn:E2.
    destruct (get_node_grows _ _ _ _ Hwf E1) as [G1 Hap].
    assert (Hwf1 : state_wf st1) by apply G1.
    destruct (get_node_grows _ _ _ _ Hwf1 E2) as [G2 Hac].
    assert (Hwf2 : state_wf st2) by apply G2.
    assert (Hap2 : nodes st2 !! p = Some ap) by (by apply G2).
    destruct (wf_nodes st2 Hwf2 c ac Hac) as (nc & Hnc & _).
    destruct (wf_nodes st2 Hwf2 p ap Hap2) as (np & Hnp & _).
    destruct (set_parent (heap st2) ac ap) as [h'| |] eqn:E; simpl; [|done..].
    intros [= <-]. simpl.
    apply (set_parent_children_nodup (heap st2) h' ac ap nc np);
      [apply Hwf2| |done..].
    eapply get_node_children_nodup; [done|].
    by eapply get_node_children_nodup.
Qed.

Lemma structure_rows_children_nodup (rows : list row) (st st' : state) :
  state_wf st → children_nodup (heap st) →
  for_rows structure_row rows st = Ok st' → children_nodup (heap st').
Proof.
  revert st. induction rows as [|r rows IH]; intros st Hwf Hnd; simpl.
  { by intros [= <-]. }
  assert (Hr := structure_row_effect st r Hwf).
  destruct (structure_row st r) as [st1| |] eqn:E; simpl; [|done..].
  apply IH; [apply Hr|]. by apply (structure_row_children_nodup st st1 r).
Qed.

Lemma children_nodup_skeleton (h h' : list node) :
  skeleton <$> h' = skeleton <$> h → children_nodup h → children_nodup h'.
Proof.
  intros Hsk Hnd a n' Ha.
  destruct (skeleton_lookup h' h a n' (eq_sym Hsk) Ha) as (n & Hn & _ & _ & Hch).
  rewrite <-Hch. by apply (Hnd a).
Qed.

Lemma run_passes_children_nodup (rows : list row) (st : state) :
  run_passes rows = Ok st → children_nodup (heap st).
Proof.
  intros Hrun. assert (H := run_passes_effect rows). rewrite Hrun in H.
  destruct H as (_ & st1 & Hst1 & _ & _ & Hsk & _).
  apply (children_nodup_skeleton (heap st1)); [done|].
  apply (structure_rows_children_nodup rows initial); [apply initial_wf| |done].
  intros a n Ha. simpl in Ha. by rewrite lookup_nil in Ha.
Qed.

(** X7.  Whatever the rows, a build whose two loops come through leaves a
    forest: the parent link of every node and the children list of its
    parent agree, no children list holds a node twice, every node reaches a
    parentless node by its parent links (there is no cycle), and every name
    of the registry refers to a node that bears it. *)
Theorem passes_keep_forest (rows : list row) (st : state) :
  run_passes rows = Ok st →
  state_wf st ∧ children_nodup (heap st).
Proof.
  intros Hrun. split; [|by apply (run_passes_children_nodup rows)].
  assert (H := run_passes_effect rows). rewrite Hrun in H. apply H.
Qed.

Lemma passes_keep_forest_witness :
  ∃ st, run_passes redeclared_rows = Ok st ∧
        state_wf st ∧ children_nodup (heap st).
Proof.
  eassert (H : run_passes redeclared_rows = Ok _) by (vm_compute; reflexivity).
  eexists. split; [exact H|]. exact (passes_keep_forest _ _ H).
Defined.

(** X8.  The second loop changes attributes only: at its end the registry
    is the one the first loop left, and every object has the name, the
    parent and the children it had. *)
Theorem attribute_pass_keeps_shape (rows : list row) (st : state) :
  run_passes rows = Ok st →
  ∃ st1, structure_pass rows = Ok st1 ∧ nodes st = nodes st1 ∧
         skeleton <$> heap st = skeleton <$> heap st1.
Proof.
  intros Hrun. assert (H := run_passes_effect rows). rewrite Hrun in H.
  destruct H as (_ & st1 & Hst1 & _ & Hn & Hsk & _). by exists st1.
Qed.

Lemma attribute_pass_keeps_shape_witness :
  ∃ st st1,
    run_passes redeclared_rows = Ok st ∧
    structure_pass redeclared_rows = Ok st1 ∧ nodes st = nodes st1 ∧
    skeleton <$> heap st = skeleton <$> heap st1.
Proof.
  eassert (H : run_passes redeclared_rows = Ok _) by (vm_compute; reflexivity).
  destruct (attribute_pass_keeps_shape _ _ H) as (st1 & H1).
  eexists. exists st1. split; [exact H|exact H1].
Defined.

(** * Splitting on a single character *)

Section SplitChar.
Context (c : ascii).
Let sep : string := String c EmptyString.

Lemma prefix_empty (x : string) : String.prefix "" x = true.
Proof. by destruct x. Qed.

Lemma prefix_char (d : ascii) (x : string) :
  String.prefix sep (String d x) = bool_decide (c = d).
Proof.
  unfold sep. cbn -[ascii_dec].
  destruct (ascii_dec c d) as [->|Hne].
  - rewrite bool_decide_eq_true_2 by done. apply prefix_empty.
  - by rewrite bool_decide_eq_false_2.
Qed.

Lemma contains_char_nil : PyStr.contains sep "" = false.
Proof. reflexivity. Qed.

Lemma contains_char_cons (d : ascii) (x : string) :
  PyStr.contains sep (String d x)
  = bool_decide (c = d) || PyStr.contains sep x.
Proof. by rewrite contains_cons, prefix_char. Qed.

Lemma contains_char_app (x y : string) :
  PyStr.contains sep (x +:+ y)
  = PyStr.contains sep x || PyStr.contains sep y.
Proof.
  induction x as [|d x IH]; [reflexivity|].
  change (String d x +:+ y) with (String d (x +:+ y)).
  by rewrite !contains_char_cons, IH, orb_assoc.
Qed.

Lemma split_from_nonempty (s : string) (k : nat) (x : string) :
  PyStr.split_from s k x ≠ [].
Proof.
  revert k. induction x as [|d x IH]; intros k; [done|].
  cbn [PyStr.split_from]. destruct k as [|k]; [|apply IH].
  destruct (String.prefix s (String d x)); [done|].
  by destruct (PyStr.split_from s 0 x).
Qed.

Lemma split_char_cons (d : ascii) (x : string) :
  PyStr.split sep (String d x)
  = if bool_decide (c = d) then "" :: PyStr.split sep x
    else match PyStr.split sep x with
         | seg :: segs => String d seg :: segs
         | [] => [String d ""]
         end.
Proof.
  unfold PyStr.split. cbn [PyStr.split_from].
  by rewrite prefix_char.
Qed.

Lemma split_char_none (x : string) :
  PyStr.contains sep x = false → PyStr.split sep x = [x].
Proof.
  induction x as [|d x IH]; [done|].
  rewrite contains_char_cons, split_char_cons.
  intros [-> Hx]%orb_false_iff. by rewrite IH.
Qed.

(** Splitting distributes over an occurrence of the separator. *)
Lemma split_char_app (x y : string) :
  PyStr.split sep (x +:+ String c y)
  = PyStr.split sep x ++ PyStr.split sep y.
Proof.
  induction x as [|d x IH].
  - change ("" +:+ String c y) with (String c y).
    rewrite split_char_cons. by rewrite bool_decide_eq_true_2.
  - change (String d x +:+ String c y) with (String d (x +:+ String c y)).
    rewrite !split_char_cons, IH. case_bool_decide as E; [done|].
    assert (Hne := split_from_nonempty sep 0 x).
    fold (PyStr.split sep x) in Hne.
    by destruct (PyStr.split sep x).
Qed.

Lemma split_char_clean (x seg : string) :
  seg ∈ PyStr.split sep x → PyStr.contains sep seg = false.
Proof.
  revert seg. induction x as [|d x IH]; intros seg.
  - by intros ->%list_elem_of_singleton.
  - rewrite split_char_cons. case_bool_decide as E.
    + intros [->|Hin]%elem_of_cons; [done|auto].
    + assert (H := split_from_nonempty sep 0 x).
      fold (PyStr.split sep x) in H.
      destruct (PyStr.split sep x) as [|s0 ss]; [done|].
      intros [->|Hin]%elem_of_cons.
      * rewrite contains_char_cons, bool_decide_eq_false_2 by done.
        apply IH. by left.
      * apply IH. by right.
Qed.

Lemma split_char_two (x : string) :
  PyStr.contains sep x = true →
  ∃ a b rest, PyStr.split sep x = a :: b :: rest.
Proof.
  induction x as [|d x IH]; [done|].
  rewrite contains_char_cons, split_char_cons.
  assert (H := split_from_nonempty sep 0 x). fold (PyStr.split sep x) in H.
  case_bool_decide as E; simpl.
  - intros _. destruct (PyStr.split sep x) as [|s0 ss]; [done|]. eauto.
  - intros (a & b & rest & ->)%IH. eauto.
Qed.

Lemma join_cons_char (d : ascii) (s0 : string) (ss : list string) :
  PyText.join sep (String d s0 :: ss) = String d (PyText.join sep (s0 :: ss)).
Proof. by destruct ss. Qed.

(** Joining the segments of a split gives the text back. *)
Lemma join_split_char (x : string) :
  PyText.join sep (PyStr.split sep x) = x.
Proof.
  induction x as [|d x IH]; [done|].
  rewrite split_char_cons.
  assert (H := split_from_nonempty sep 0 x). fold (PyStr.split sep x) in H.
  destruct (PyStr.split sep x) as [|s0 ss]; [done|].
  case_bool_decide as E.
  - subst d.
    change (PyText.join sep ("" :: s0 :: ss))
      with (String c (PyText.join sep (s0 :: ss))).
    by rewrite IH.
  - by rewrite join_cons_char, IH.
Qed.

(** Splitting a join of segments free of the separator gives them back. *)
Lemma split_join_char (l : list string) :
  l ≠ [] → (∀ seg, seg ∈ l → PyStr.contains sep seg = false) →
  PyStr.split sep (PyText.join sep l) = l.
Proof.
  induction l as [|x l IH]; [done|]. intros _ Hl.
  destruct l as [|y l].
  - simpl. apply split_char_none, Hl. by left.
  - change (PyText.join sep (x :: y :: l))
      with (x +:+ String c (PyText.join sep (y :: l))).
    rewrite split_char_app, IH; [|done|intros seg Hseg; apply Hl; by right].
    rewrite split_char_none; [done|]. apply Hl. by left.
Qed.

End SplitChar.

(** * Further properties of the parsers *)

Lemma param_pair_ok_iff (seg : string) :
  (∃ kv, param_pair seg = Ok kv) ↔ PyStr.contains "=" seg = true.
Proof.
  unfold param_pair. split.
  - intros [kv H]. destruct (PyStr.contains "=" seg) eqn:E; [done|].
    by rewrite (split_char_none "=" seg E) in H.
  - intros (a & b & rest & ->)%(split_char_two "="). eauto.
Qed.

Lemma params_dict_ok_iff (segs : list string) (d : gmap string string) :
  (∃ d', params_dict segs d = Ok d')
  ↔ forallb (PyStr.contains "=") segs = true.
Proof.
  revert d. induction segs as [|seg segs IH]; intros d; simpl.
  { split; [done|by eauto]. }
  rewrite andb_true_iff, <-param_pair_ok_iff. split.
  - intros [d' H]. destruct (param_pair seg) as [[k v]| |]; [|done..].
    simpl in H. split; [by eauto|]. apply (IH (<[k:=v]> d)). by eauto.
  - intros [[[k v] ->] H]. simpl. by apply IH.
Qed.

Lemma params_dict_app (segs1 segs2 : list string) (d : gmap string string) :
  params_dict (segs1 ++ segs2) d
  = (d1 ← params_dict segs1 d; params_dict segs2 d1).
Proof.
  revert d. induction segs1 as [|seg segs1 IH]; intros d; [done|].
  simpl. destruct (param_pair seg) as [[k v]| |]; simpl; [apply IH|done..].
Qed.

Lemma split_params_cases (x : string) :
  ((∃ d, split_params x = Ok d) ↔ params_ok x = true) ∧
  (split_params x = Raise IndexError ↔ params_ok x = false).
Proof.
  unfold split_params, params_ok.
  assert (H := params_dict_ok_iff (PyStr.split "|" x) ∅).
  split; [done|].
  destruct (params_dict (PyStr.split "|" x) ∅) as [d|e|] eqn:E.
  - split; [done|]. intros Hf. destruct H as [H _].
    rewrite H in Hf by eauto. done.
  - rewrite (params_dict_raise _ _ _ E). split; [|done]. intros _.
    destruct (forallb _ _); [|done].
    destruct H as [_ [d' H]]; [done|]. done.
  - by apply params_dict_not_stuck in E.
Qed.

(** X9.  [split_params] returns a mapping exactly when every segment
    between bars holds an equals sign, and raises IndexError otherwise: so
    it raises on the empty string, on a trailing bar and on a bare word. *)
Theorem split_params_ok_iff (x : string) :
  ((∃ d, split_params x = Ok d) ↔ params_ok x = true) ∧
  (split_params x = Raise IndexError ↔ params_ok x = false).
Proof. apply split_params_cases. Qed.

(** X10.  The segments are taken from left to right and a later one
    overwrites an earlier one with the same key: appending a bar and a
    segment [k=v] to parameters that parse gives the earlier mapping with [k]
    set to [v]. *)
Theorem split_params_last_wins (x seg k v : string)
  (d : gmap string string) :
  split_params x = Ok d → PyStr.contains "|" seg = false →
  param_pair seg = Ok (k, v) →
  split_params (x +:+ "|" +:+ seg) = Ok (<[k := v]> d).
Proof.
  unfold split_params. intros Hx Hseg Hkv.
  change (x +:+ "|" +:+ seg) with (x +:+ String "|" seg).
  rewrite (split_char_app "|" x seg), params_dict_app, Hx. simpl.
  rewrite (split_char_none "|" seg Hseg). simpl. by rewrite Hkv.
Qed.

Lemma split_params_last_wins_witness :
  split_params ("word=a|n=1" +:+ "|" +:+ "word = b")
  = Ok (<["word" := "b"]> (<["n" := "1"]> (<["word" := "a"]> ∅))).
Proof.
  apply (split_params_last_wins "word=a|n=1" "word = b" "word" "b");
    reflexivity.
Defined.

Lemma remove_spaces_clean (x : string) :
  PyStr.contains " " (PyStr.remove_spaces x) = false.
Proof.
  induction x as [|ch x IH]; [done|]. simpl.
  destruct (Ascii.eqb ch " ") eqn:E; [done|].
  rewrite (contains_char_cons " "), IH, orb_false_r.
  apply bool_decide_eq_false_2. intros <-. by rewrite Ascii.eqb_refl in E.
Qed.

Lemma remove_spaces_id (x : string) :
  PyStr.contains " " x = false → PyStr.remove_spaces x = x.
Proof.
  induction x as [|ch x IH]; [done|].
  rewrite (contains_char_cons " "). intros [Hc Hx]%orb_false_iff.
  apply bool_decide_eq_false in Hc. simpl.
  destruct (Ascii.eqb_spec ch " ") as [->|_]; [done|]. by rewrite IH.
Qed.

Lemma params_dict_clean (segs : list string) (d d' : gmap string string) :
  (∀ k v, d !! k = Some v →
          PyStr.contains " " k = false ∧ PyStr.contains " " v = false) →
  params_dict segs d = Ok d' →
  ∀ k v, d' !! k = Some v →
         PyStr.contains " " k = false ∧ PyStr.contains " " v = false.
Proof.
  revert d. induction segs as [|seg segs IH]; intros d Hd; simpl.
  { by intros [= <-]. }
  unfold param_pair.
  destruct (PyStr.split "=" seg) as [|i0 [|i1 rest]]; simpl; [done..|].
  apply IH. intros k v. rewrite lookup_insert. case_decide as E.
  - intros [= <-]. subst k. split; apply remove_spaces_clean.
  - apply Hd.
Qed.

(** X11.  No key and no value of the mapping that [split_params] returns
    holds a space. *)
Theorem split_params_no_spaces (x k v : string) (d : gmap string string) :
  split_params x = Ok d → d !! k = Some v →
  PyStr.contains " " k = false ∧ PyStr.contains " " v = false.
Proof.
  intros Hx. apply (params_dict_clean (PyStr.split "|" x) ∅ d); [|done].
  intros k' v' H. by rewrite lookup_empty in H.
Qed.

Lemma split_params_no_spaces_witness :
  PyStr.contains " " "word" = false ∧ PyStr.contains " " "ab" = false.
Proof.
  apply (split_params_no_spaces " word = a b | n=1" "word" "ab"
           (<["n" := "1"]> (<["word" := "ab"]> ∅)));
    vm_compute; reflexivity.
Defined.

Lemma split_process_contains (x a b : string) :
  split_process x = Ok (a, b) →
  ∃ r, x = a +:+ "->" +:+ r ∧ PyStr.contains "->" a = false ∧
       ((PyStr.contains "->" r = false ∧ b = r) ∨
        (∃ r', r = b +:+ "->" +:+ r' ∧ PyStr.contains "->" b = false)).
Proof.
  intros H. destruct (PyStr.contains "->" x) eqn:Hx.
  - apply contains_arrow_first in Hx as (a0 & r & -> & Ha0).
    destruct (split_process_after_first a0 r Ha0) as (b0 & Hsplit & Hb0).
    rewrite Hsplit in H. injection H as <- <-. by exists r.
  - unfold split_process in H. by rewrite split_arrow_none in H.
Qed.

(** X12.  The two names that the relation parser returns hold no space
    and no "->". *)
Theorem parse_relation_names (x p c : string) :
  parse_relation x = Ok (p, c) →
  PyStr.contains " " p = false ∧ PyStr.contains " " c = false ∧
  PyStr.contains "->" p = false ∧ PyStr.contains "->" c = false.
Proof.
  unfold parse_relation. intros (r & E & Hp & Hc)%split_process_contains.
  assert (Hs := remove_spaces_clean x). fold (strip_process x) in Hs.
  rewrite E in Hs.
  change (p +:+ "->" +:+ r) with (p +:+ String "-" (String ">" r)) in Hs.
  rewrite (contains_char_app " "), !(contains_char_cons " ") in Hs.
  apply orb_false_iff in Hs as [Hsp [_ [_ Hsr]%orb_false_iff]%orb_false_iff].
  split; [done|]. destruct Hc as [[Hr ->]|(r' & -> & Hb)].
  - done.
  - rewrite (contains_char_app " ") in Hsr.
    apply orb_false_iff in Hsr as [Hsc _]. done.
Qed.

Lemma parse_relation_names_witness :
  PyStr.contains " " "A" = false ∧ PyStr.contains " " "BC" = false ∧
  PyStr.contains "->" "A" = false ∧ PyStr.contains "->" "BC" = false.
Proof.
  apply (parse_relation_names " A -> B C -> D " "A" "BC"). reflexivity.
Defined.

Lemma remove_spaces_lstrip (b : string) :
  PyStr.remove_spaces (PyText.lstrip b) = PyText.lstrip (PyStr.remove_spaces b).
Proof.
  induction b as [|ch b IH]; [done|]. simpl.
  destruct (PyText.isspace ch) eqn:Hws;
    destruct (Ascii.eqb ch " ") eqn:Heq; simpl; rewrite ?Heq, ?Hws; try done.
  apply Ascii.eqb_eq in Heq. subst ch. discriminate Hws.
Qed.

(** X13.  The label that [read_data] derives from a process field is the
    second segment of the raw field without its leading whitespace, and the
    derivation raises IndexError when the field holds no "->".  When removing
    the spaces of the first two segments creates no "->", the relation parser
    returns these segments without their spaces, so that the label, spaces
    removed, is the name of the child without leading whitespace. *)
Theorem default_label_names_child (x : string) :
  (PyStr.contains "->" x = false → default_label x = Raise IndexError) ∧
  ∀ a b,
    split_process x = Ok (a, b) →
    default_label x = Ok (PyText.lstrip b) ∧
    (PyStr.contains "->" (PyStr.remove_spaces a) = false →
     PyStr.contains "->" (PyStr.remove_spaces b) = false →
     parse_relation x
     = Ok (PyStr.remove_spaces a, PyStr.remove_spaces b) ∧
     PyStr.remove_spaces (PyText.lstrip b)
     = PyText.lstrip (PyStr.remove_spaces b)).
Proof.
  split.
  - intros Hx. unfold default_label, split_process.
    by rewrite split_arrow_none.
  - intros a b Hsplit. split; [unfold default_label; by rewrite Hsplit|].
    intros Ha Hb. split; [|apply remove_spaces_lstrip].
    apply split_process_contains in Hsplit as (r & -> & _ & Hr).
    unfold parse_relation, strip_process, split_process.
    rewrite !remove_spaces_app.
    change (PyStr.remove_spaces "->") with "->".
    rewrite split_arrow_first by done.
    destruct Hr as [[_ ->]|(r' & -> & _)].
    + by rewrite split_arrow_none.
    + rewrite !remove_spaces_app.
      change (PyStr.remove_spaces "->") with "->".
      by rewrite split_arrow_first.
Qed.

(** * Further properties of the second loop *)

Lemma split_params_ok (x : string) :
  params_ok x = true → ∃ d, split_params x = Ok d.
Proof. intros H. by apply (proj1 (split_params_cases x)). Qed.

Lemma attribute_row_ok_iff (st : state) (r : row) :
  state_wf st →
  (∃ st', attribute_row st r = Ok st') ↔
  (∃ p c, parse_relation (process r) = Ok (p, c) ∧ is_Some (nodes st !! c)) ∧
  params_ok (row_params r) = true.
Proof.
  intros Hwf. unfold attribute_row, parse_relation. split.
  - intros [st' H].
    destruct (split_process _) as [[p c]| |]; simpl in H; [|done..].
    destruct (nodes st !! c) as [a|] eqn:Ha; simpl in H; [|done].
    destruct (get (heap st) a) as [n| |]; simpl in H; [|done..].
    destruct (split_params (row_params r)) as [d| |] eqn:Hd; [|done..].
    split; [exists p, c; by eauto|].
    apply (proj1 (split_params_cases _)). by eauto.
  - intros [(p & c & -> & a & Ha) [d Hd]%split_params_ok]. simpl.
    rewrite Ha. simpl.
    destruct (wf_nodes st Hwf c a Ha) as (n & Hn & _).
    rewrite (get_Some _ _ _ Hn), Hd. simpl.
    destruct (parent n) as [b|] eqn:Hpar; simpl; [|by eauto].
    destruct (wf_parent _ (wf_heap st Hwf) a n b Hn Hpar) as (nb & Hnb & _).
    rewrite (get_Some _ _ _ Hnb). simpl. by eauto.
Qed.

Lemma attribute_rows_ok_iff (rows : list row) (st : state) :
  state_wf st →
  (∃ st', for_rows attribute_row rows st = Ok st') ↔
  ∀ r, r ∈ rows →
       (∃ p c, parse_relation (process r) = Ok (p, c) ∧
               is_Some (nodes st !! c)) ∧
       params_ok (row_params r) = true.
Proof.
  revert st. induction rows as [|r rows IH]; intros st Hwf; simpl.
  { split; [by intros _ r ?%elem_of_nil|by eauto]. }
  assert (Heff := attribute_row_effect st r Hwf).
  assert (Hiff := attribute_row_ok_iff st r Hwf).
  destruct (attribute_row st r) as [st1| |]; simpl.
  - destruct Heff as (Hn & Hsk & _).
    assert (Hwf1 : state_wf st1) by (by apply (state_wf_skeleton st)).
    rewrite (IH st1 Hwf1), Hn. split.
    + intros H r' [->|Hr']%elem_of_cons; [|by apply H].
      apply Hiff. by eauto.
    + intros H r' Hr'. apply H. by right.
  - split; [by intros [? ?]|]. intros H.
    destruct (proj2 Hiff) as [? ?]; [apply H; by left|done].
  - done.
Qed.

(** X14.  Once the first loop has come through, the second loop comes
    through exactly when every row parses into a relation once its spaces
    are removed, the child of that relation is a name of the registry, and
    every bar-separated segment of the row's params holds an equals sign. *)
Theorem attribute_pass_ok_iff (rows : list row) (st1 : state) :
  structure_pass rows = Ok st1 →
  (∃ st, run_passes rows = Ok st) ↔
  ∀ r, r ∈ rows →
       (∃ p c, parse_relation (process r) = Ok (p, c) ∧
               is_Some (nodes st1 !! c)) ∧
       params_ok (row_params r) = true.
Proof.
  intros H1. unfold run_passes. rewrite H1. simpl.
  apply attribute_rows_ok_iff.
  assert (H := structure_pass_effect rows). rewrite H1 in H. apply H.
Qed.

Lemma attribute_pass_ok_iff_witness :
  ∃ st1,
    structure_pass spaced_rows = Ok st1 ∧
    ((∃ st, run_passes spaced_rows = Ok st) ↔
     ∀ r, r ∈ spaced_rows →
          (∃ p c, parse_relation (process r) = Ok (p, c) ∧
                  is_Some (nodes st1 !! c)) ∧
          params_ok (row_params r) = true).
Proof.
  eassert (H : structure_pass spaced_rows = Ok _) by (vm_compute; reflexivity).
  eexists. split; [exact H|]. exact (attribute_pass_ok_iff _ _ H).
Defined.

(** X15.  A table in which every process field holds "->" and every
    params field is well formed gets through both loops unless the first
    loop meets a relation that would close a cycle: the only exception left
    is LoopError. *)
Theorem well_formed_rows_pass (rows : list row) :
  (∀ r, r ∈ rows → PyStr.contains "->" (process r) = true ∧
                   params_ok (row_params r) = true) →
  (∃ st, run_passes rows = Ok st) ∨ run_passes rows = Raise LoopError.
Proof.
  intros Hrows. assert (H1 := structure_pass_effect rows).
  destruct (structure_pass rows) as [st1|e|] eqn:E1; [|right|done].
  - left. unfold run_passes. rewrite E1. simpl.
    apply (attribute_rows_ok_iff rows st1); [apply H1|].
    intros r Hr. destruct (Hrows r Hr) as [Hx Hp]. split; [|done].
    destruct (parse_of_contains _ Hx) as (p & c & Hparse).
    exists p, c. split; [done|].
    by apply (proj2 (structure_rows_registered rows initial st1
                       initial_wf E1) r p c).
  - unfold run_passes. rewrite E1. simpl. by rewrite H1.
Qed.

Lemma well_formed_rows_pass_witness :
  (∃ st, run_passes moved_rows = Ok st) ∨
  run_passes moved_rows = Raise LoopError.
Proof.
  apply (well_formed_rows_pass moved_rows).
  intros r Hr. unfold moved_rows in Hr.
  repeat (apply elem_of_cons in Hr as [->|Hr]; [by split|]).
  by apply elem_of_nil in Hr.
Defined.

Lemma attribute_row_attributed (st st' : state) (r : row) :
  state_wf st → attribute_row st r = Ok st' →
  ∃ p c a,
    parse_relation (process r) = Ok (p, c) ∧ nodes st !! c = Some a ∧
    attributed (heap st') a r ∧
    ∀ x, x ≠ a → heap st' !! x = heap st !! x.
Proof.
  intros Hwf. unfold attribute_row, parse_relation.
  destruct (split_process _) as [[p c]| |]; simpl; [|done..].
  destruct (nodes st !! c) as [a|] eqn:Ha; simpl; [|done].
  destruct (wf_nodes st Hwf c a Ha) as (n & Hn & Hname).
  rewrite (get_Some _ _ _ Hn). simpl.
  destruct (split_params (row_params r)) as [d| |] eqn:Hd; simpl; [|done..].
  assert (Hla := lookup_lt_Some _ _ _ Hn).
  destruct (parent n) as [b|] eqn:Hpar; simpl.
  - destruct (wf_parent _ (wf_heap st Hwf) a n b Hn Hpar) as (nb & Hnb & _).
    rewrite (get_Some _ _ _ Hnb). simpl. intros [= <-]. simpl.
    exists p, c, a. split; [done|]. split; [done|].
    split; [|intros x Hx; by apply list_lookup_insert_ne].
    eexists _, d, _. split; [by apply list_lookup_insert_eq|]. simpl.
    do 5 (split; [done|]).
    split; [rewrite lookup_insert_ne by done; apply lookup_insert_eq|].
    split; [intros k Hk1 Hk2; by rewrite !lookup_insert_ne|].
    rewrite Hpar. destruct (decide (b = a)) as [->|Hne].
    + eexists. split; [by apply list_lookup_insert_eq|]. simpl.
      rewrite lookup_insert_eq. congruence.
    + exists nb. split; [by rewrite list_lookup_insert_ne|].
      apply lookup_insert_eq.
  - intros [= <-]. simpl.
    exists p, c, a. split; [done|]. split; [done|].
    split; [|intros x Hx; by apply list_lookup_insert_ne].
    eexists _, d, _. split; [by apply list_lookup_insert_eq|]. simpl.
    do 5 (split; [done|]).
    split; [apply lookup_insert_eq|].
    split; [intros k Hk1 Hk2; by rewrite lookup_insert_ne|].
    rewrite Hpar. by rewrite lookup_insert_ne.
Qed.

Lemma attributed_preserved (st st' : state) (r r0 : row) (x : addr)
  (p c : string) (a : addr) :
  state_wf st → attribute_row st r = Ok st' →
  parse_relation (process r) = Ok (p, c) → nodes st !! c = Some a →
  x ≠ a → attributed (heap st) x r0 → attributed (heap st') x r0.
Proof.
  intros Hwf Hstep Hparse Ha Hne Hattr.
  assert (Heff := attribute_row_effect st r Hwf). rewrite Hstep in Heff.
  destruct Heff as (_ & Hsk & _).
  destruct (attribute_row_attributed st st' r Hwf Hstep)
    as (p' & c' & a' & Hparse' & Ha' & _ & Hsame).
  assert (a' = a) as -> by congruence.
  destruct Hattr as (n & d & kw & Hn & Hl & Hm & Hp & Hd & Hkw & Hch & Hrest & Hpar).
  exists n, d, kw. rewrite Hsame by done.
  do 8 (split; [done|]).
  destruct (parent n) as [b|]; [|done].
  destruct Hpar as (nb & Hnb & Hkwp).
  destruct (skeleton_lookup _ _ b nb Hsk Hnb) as (nb' & Hnb' & Hname & _).
  exists nb'. split; [done|congruence].
Qed.

Lemma attribute_rows_last (post : list row) (st st' : state) (r : row)
  (c : string) (a : addr) :
  state_wf st → nodes st !! c = Some a → attributed (heap st) a r →
  (∀ r', r' ∈ post → ∀ p', parse_relation (process r') ≠ Ok (p', c)) →
  for_rows attribute_row post st = Ok st' →
  attributed (heap st') a r.
Proof.
  revert st. induction post as [|r' post IH]; intros st Hwf Ha Hattr Hpost.
  { simpl. by intros [= <-]. }
  simpl. destruct (attribute_row st r') as [st1| |] eqn:Hstep; simpl; [|done..].
  assert (Heff := attribute_row_effect st r' Hwf). rewrite Hstep in Heff.
  destruct Heff as (Hn & Hsk & _).
  destruct (attribute_row_attributed st st1 r' Hwf Hstep)
    as (p' & c' & a' & Hparse' & Ha' & _).
  apply IH.
  - by apply (state_wf_skeleton st).
  - by rewrite Hn.
  - apply (attributed_preserved st st1 r' r a p' c' a'); [done..| |done].
    intros ->.
    destruct (wf_nodes st Hwf c a' Ha) as (n1 & Hn1 & Hname1).
    destruct (wf_nodes st Hwf c' a' Ha') as (n2 & Hn2 & Hname2).
    assert (Hin : r' ∈ r' :: post) by (by left).
    apply (Hpost r' Hin p'). congruence.
  - intros r'' Hr''. apply Hpost. by right.
Qed.

(** X16.  The attributes of a node are those of the last row that names
    it as its child: at the end of both loops the node registered under the
    child of a row that no later row with the same child follows carries the
    label, the module and the raw params of that row, and a [kwargs] mapping
    that is its parsed params, except that [child] is the name of the node
    and, when the node has a parent, [parent] is the name of the parent,
    whatever the params said for these two keys. *)
Theorem last_row_decides_attributes (pre post : list row) (r : row)
  (p c : string) (st : state) :
  run_passes (pre ++ r :: post) = Ok st →
  parse_relation (process r) = Ok (p, c) →
  (∀ r', r' ∈ post → ∀ p', parse_relation (process r') ≠ Ok (p', c)) →
  ∃ a, nodes st !! c = Some a ∧ attributed (heap st) a r.
Proof.
  intros Hrun Hparse Hpost. unfold run_passes in Hrun.
  assert (H1 := structure_pass_effect (pre ++ r :: post)).
  destruct (structure_pass (pre ++ r :: post)) as [st1| |]; [|done..].
  simpl in Hrun. destruct H1 as [Hwf1 _].
  rewrite for_rows_app in Hrun.
  assert (H2 := attribute_rows_effect pre st1 Hwf1).
  destruct (for_rows attribute_row pre st1) as [st2| |]; [|done..].
  simpl in Hrun. destruct H2 as (Hn2 & Hsk2 & _).
  assert (Hwf2 : state_wf st2) by (by apply (state_wf_skeleton st1)).
  destruct (attribute_row st2 r) as [st3| |] eqn:Hstep; [|done..].
  simpl in Hrun.
  assert (H3 := attribute_row_effect st2 r Hwf2). rewrite Hstep in H3.
  destruct H3 as (Hn3 & Hsk3 & _).
  destruct (attribute_row_attributed st2 st3 r Hwf2 Hstep)
    as (p' & c' & a & Hparse' & Ha & Hattr & _).
  assert (c' = c) as -> by congruence.
  assert (Hwf3 : state_wf st3) by (by apply (state_wf_skeleton st2)).
  assert (H4 := attribute_rows_effect post st3 Hwf3). rewrite Hrun in H4.
  destruct H4 as (Hn4 & _).
  exists a. split; [congruence|].
  apply (attribute_rows_last post st3 st r c a); [done|congruence|done..].
Qed.

Lemma last_row_decides_attributes_witness :
  ∃ st a,
    run_passes ([rel "-> A"; rel "A -> B"] ++ relabel_row :: [rel "-> A"])
    = Ok st ∧
    nodes st !! "B" = Some a ∧ attributed (heap st) a relabel_row.
Proof.
  eassert (H : run_passes ([rel "-> A"; rel "A -> B"] ++
                           relabel_row :: [rel "-> A"]) = Ok _)
    by (vm_compute; reflexivity).
  destruct (last_row_decides_attributes _ _ _ "A" "B" _ H) as (a & Ha).
  - reflexivity.
  - intros r' ->%list_elem_of_singleton p' Hp. by vm_compute in Hp.
  - eexists. exists a. split; [exact H|exact Ha].
Defined.

(** * Further properties of the traversal *)

Lemma descends_child (h : list node) (r x y : addr) (n : node) :
  heap_wf h → descends h r x → h !! x = Some n → y ∈ children n →
  descends h r y.
Proof.
  intros Hwf (l & Hl & Hlast) Hn Hy.
  destruct (wf_child h Hwf x n y Hn Hy) as (ny & Hny & Hpar).
  exists (y :: l). split; [by eapply path_up_step|].
  destruct (path_up_nonempty _ _ _ Hl) as [l' ->]. done.
Qed.

Lemma level_order_descends (h : list node) (r : addr) (fuel : nat)
  (cur out : list addr) :
  heap_wf h → level_order fuel h cur = Ok out →
  (∀ x, x ∈ cur → descends h r x) → ∀ x, x ∈ out → descends h r x.
Proof.
  intros Hwf. revert cur out.
  induction fuel as [|fuel IH]; intros cur out Hrun Hcur.
  { destruct cur; [|done]. injection Hrun as <-. by intros x ?%elem_of_nil. }
  destruct cur as [|a cur]; [injection Hrun as <-; by intros x ?%elem_of_nil|].
  destruct (next_level_spec h (a :: cur)) as (nxt & Hnxt & Hin).
  { intros x (l & Hl & _)%Hcur. by eapply path_up_lookup. }
  cbn [level_order] in Hrun. rewrite Hnxt in Hrun. simpl in Hrun.
  destruct (level_order fuel h nxt) as [rest| |] eqn:Hrest; [|done..].
  simpl in Hrun. injection Hrun as <-.
  intros x [Hx|Hx]%(elem_of_app (a :: cur)); [by apply Hcur|].
  apply (IH nxt rest Hrest); [|done].
  intros y (x' & n' & Hx' & Hn' & Hy)%Hin.
  exact (descends_child h r x' y n' Hwf (Hcur x' Hx') Hn' Hy).
Qed.

Lemma next_level_nodup (h : list node) (cur nxt : list addr) :
  heap_wf h → children_nodup h → NoDup cur →
  next_level h cur = Ok nxt → NoDup nxt.
Proof.
  intros Hwf Hnd. revert nxt.
  induction cur as [|a cur IH]; intros nxt Hcur; simpl.
  { intros [= <-]. apply NoDup_nil_2. }
  apply NoDup_cons in Hcur as [Ha Hcur].
  destruct (get h a) as [n| |] eqn:Hn; simpl; [|done..].
  unfold get in Hn. destruct (h !! a) as [n'|] eqn:Hn'; [|done].
  injection Hn as ->.
  destruct (next_level h cur) as [rest| |] eqn:Hrest; simpl; [|done..].
  intros [= <-]. apply NoDup_app. split; [by apply (Hnd a)|].
  split; [|by apply IH].
  intros y Hy Hy'.
  destruct (next_level_spec h cur) as (rest' & Hrest' & Hin).
  { intros x Hx. destruct (h !! x) eqn:E; [done|].
    clear -Hrest Hx E. exfalso. revert rest Hrest.
    induction cur as [|b cur IH]; intros rest; [by apply elem_of_nil in Hx|].
    simpl. apply elem_of_cons in Hx as [->|Hx].
    - unfold get. by rewrite E.
    - destruct (get h b); simpl; [|done..].
      destruct (next_level h cur) as [rest'| |]; [|done..].
      intros _. by apply (IH Hx rest'). }
  assert (rest' = rest) as -> by congruence.
  apply Hin in Hy' as (x & nx & Hx & Hnx & Hyx).
  destruct (wf_child h Hwf a n y Hn' Hy) as (ny & Hny & Hpar).
  destruct (wf_child h Hwf x nx y Hnx Hyx) as (ny' & Hny' & Hpar').
  assert (a = x) by congruence. by subst.
Qed.

Lemma level_order_nodup (h : list node) (fuel k : nat)
  (cur out : list addr) :
  heap_wf h → children_nodup h → NoDup cur →
  (∀ x, x ∈ cur → ∃ l, path_up h x l ∧ length l = k) →
  length h < fuel + k →
  level_order fuel h cur = Ok out → NoDup out.
Proof.
  intros Hwf Hnd. revert k cur out.
  induction fuel as [|fuel IH]; intros k cur out Hcur Hdepth Hfuel Hrun.
  { destruct cur; [|done]. injection Hrun as <-. apply NoDup_nil_2. }
  destruct cur as [|a cur]; [injection Hrun as <-; apply NoDup_nil_2|].
  destruct (next_level_spec h (a :: cur)) as (nxt & Hnxt & Hin).
  { intros x (l & Hl & _)%Hdepth. by eapply path_up_lookup. }
  assert (Hdeep := next_level_depth h (a :: cur) nxt k Hwf Hdepth Hin).
  destruct (level_order_spec h fuel (S k) nxt Hwf Hdeep)
    as (rest & Hrest & _ & Hge & _); [lia|].
  cbn [level_order] in Hrun. rewrite Hnxt in Hrun. simpl in Hrun.
  rewrite Hrest in Hrun. simpl in Hrun. injection Hrun as <-.
  apply (NoDup_app (a :: cur) rest). split; [done|]. split.
  - intros x Hx Hx'.
    destruct (Hdepth x Hx) as (l1 & Hl1 & Hlen1).
    destruct (Hge x Hx') as (l2 & Hl2 & Hlen2).
    rewrite (path_up_det h x l1 l2 Hl1 Hl2) in Hlen1. lia.
  - apply (IH (S k) nxt rest); [|done|lia|done].
    by apply (next_level_nodup h (a :: cur)).
Qed.

Lemma level_order_reaches (h : list node) (r : addr) (out : list addr) :
  heap_wf h → r ∈ out →
  (∀ x n c, x ∈ out → h !! x = Some n → c ∈ children n → c ∈ out) →
  ∀ x l, path_up h x l → last l = Some r → x ∈ out.
Proof.
  intros Hwf Hr Hclosed x l Hl. induction Hl as [a n Ha Hn|a n q l Ha Hn Hq IH].
  - simpl. by intros [= ->].
  - destruct (path_up_nonempty _ _ _ Hq) as [l' ->]. intros Hlast.
    destruct (wf_parent h Hwf a n q Ha Hn) as (nq & Hnq & Hin).
    apply (Hclosed q nq a); [by apply IH|done..].
Qed.

(** X17.  The traversal of a tree that the build returns lists every node
    below the root, the root included, and nothing else, and lists no node
    twice: a node is listed exactly when its parent links lead to the
    root. *)
Theorem traverse_tree_lists_descendants (rows : list row) (t : tree) :
  build_tree rows = Ok t →
  ∃ out, traverse_tree t = Ok out ∧ NoDup out ∧
         ∀ x, x ∈ out ↔ descends (store t) (root t) x.
Proof.
  intros Hbuild.
  destruct (build_tree_root rows t Hbuild) as (Hwf & nr & Hnr & Hroot).
  assert (Hnd : children_nodup (store t)).
  { unfold build_tree in Hbuild.
    destruct (run_passes rows) as [st| |] eqn:Hrun; [|done..].
    simpl in Hbuild. destruct (select_root st); [|done..].
    injection Hbuild as <-. simpl. by apply (run_passes_children_nodup rows). }
  assert (Hdepth : ∀ x, x ∈ [root t] →
            ∃ l, path_up (store t) x l ∧ length l = 1).
  { intros x ->%list_elem_of_singleton. exists [root t].
    split; [by eapply path_up_root|done]. }
  destruct (level_order_spec (store t) (S (length (store t))) 1 [root t]
              Hwf Hdepth) as (out & Hout & Hshape & _ & _ & Hclosed); [lia|].
  exists out. split; [done|]. split.
  - apply (level_order_nodup (store t) (S (length (store t))) 1 [root t]);
      [done..|apply NoDup_singleton|done|lia|done].
  - intros x. split.
    + apply (level_order_descends (store t) (root t) _ [root t] out Hwf Hout).
      intros y ->%list_elem_of_singleton. exists [root t].
      split; [by eapply path_up_root|done].
    + intros (l & Hl & Hlast).
      apply (level_order_reaches (store t) (root t) out Hwf) with l;
        [|done..].
      destruct Hshape as [[? _]|(nxt & rest & _ & ->)]; [done|]. by left.
Qed.

Lemma traverse_tree_lists_descendants_witness :
  ∃ t out,
    build_tree redeclared_rows = Ok t ∧ traverse_tree t = Ok out ∧
    NoDup out ∧ ∀ x, x ∈ out ↔ descends (store t) (root t) x.
Proof.
  eassert (H : build_tree redeclared_rows = Ok _) by (vm_compute; reflexivity).
  destruct (traverse_tree_lists_descendants _ _ H) as (out & Hout).
  eexists. exists out. split; [exact H|exact Hout].
Defined.

(** * Properties of [pretty_format] *)

Section Formatting.

Lemma take_drop (n : nat) (s : string) :
  PyText.take n s +:+ PyText.drop n s = s.
Proof.
  revert s. induction n as [|n IH]; intros [|ch s]; try done.
  simpl. change (String ch (PyText.take n s) +:+ PyText.drop n s)
    with (String ch (PyText.take n s +:+ PyText.drop n s)).
  by rewrite IH.
Qed.

Lemma take_length (n : nat) (s : string) :
  String.length (PyText.take n s) ≤ n.
Proof.
  revert s. induction n as [|n IH]; intros [|ch s]; simpl; try lia.
  specialize (IH s). lia.
Qed.

Lemma string_app_assoc (a b d : string) :
  (a +:+ b) +:+ d = a +:+ (b +:+ d).
Proof.
  induction a as [|ch a IH]; [done|].
  change (String ch ((a +:+ b) +:+ d) = String ch (a +:+ (b +:+ d))).
  by rewrite IH.
Qed.

Lemma string_app_length (a b : string) :
  String.length (a +:+ b) = String.length a + String.length b.
Proof.
  induction a as [|ch a IH]; [done|].
  change (S (String.length (a +:+ b)) = S (String.length a + String.length b)).
  by rewrite IH.
Qed.

Lemma spaces_length (k : nat) : String.length (spaces k) = k.
Proof. induction k as [|k IH]; [done|]. simpl. by rewrite IH. Qed.

(** The leading spaces of a string, set apart. *)
Lemma lstrip_spaces_split (s : string) :
  ∃ k, k ≤ String.length s ∧ s = spaces k +:+ PyText.lstrip_spaces s.
Proof.
  induction s as [|ch s (k & Hk & IH)]; [by exists 0|]. simpl.
  destruct (Ascii.eqb_spec ch " ") as [->|Hne].
  - exists (S k). split; [lia|].
    change (String " " s = String " " (spaces k +:+ PyText.lstrip_spaces s)).
    by rewrite <-IH.
  - exists 0. split; [lia|done].
Qed.

(** A line loses leading spaces only, and no more than [l] of them. *)
Lemma dedent_line_split (l : nat) (i : string) :
  ∃ k, k ≤ l ∧ i = spaces k +:+ dedent_line l i.
Proof.
  unfold dedent_line.
  destruct (lstrip_spaces_split (PyText.take l i)) as (k & Hk & E).
  exists k. split; [by etrans; [|apply (take_length l i)]|].
  rewrite <-string_app_assoc, <-E. by rewrite take_drop.
Qed.

Lemma dedent_line_zero (i : string) : dedent_line 0 i = i.
Proof. unfold dedent_line. by destruct i. Qed.

Lemma spaces_no_newline (k : nat) :
  PyStr.contains PyText.newline (spaces k) = false.
Proof.
  unfold PyText.newline. induction k as [|k IH]; [done|].
  change (spaces (S k)) with (String " " (spaces k)).
  by rewrite (contains_char_cons "010"), IH.
Qed.

Lemma dedent_line_no_newline (l : nat) (i : string) :
  PyStr.contains PyText.newline i = false →
  PyStr.contains PyText.newline (dedent_line l i) = false.
Proof.
  destruct (dedent_line_split l i) as (k & _ & E). intros H.
  rewrite E in H. unfold PyText.newline in *.
  rewrite (contains_char_app "010") in H.
  by apply orb_false_iff in H as [_ H].
Qed.

Lemma lstrip_spaces_spaces (k : nat) : PyText.lstrip_spaces (spaces k) = "".
Proof. induction k as [|k IH]; [done|]. simpl. apply IH. Qed.

Lemma take_indent (k : nat) (x : string) :
  PyText.take k (indent k x) = spaces k.
Proof.
  unfold indent. induction k as [|k IH]; [by destruct x|].
  simpl. change (String " " (spaces k) +:+ x)
    with (String " " (spaces k +:+ x)). simpl. by rewrite IH.
Qed.

Lemma drop_indent (k : nat) (x : string) :
  PyText.drop k (indent k x) = x.
Proof.
  unfold indent. induction k as [|k IH]; [by destruct x|].
  simpl. change (String " " (spaces k) +:+ x)
    with (String " " (spaces k +:+ x)). simpl. apply IH.
Qed.

Lemma dedent_indent (k : nat) (x : string) :
  dedent_line k (indent k x) = x.
Proof.
  unfold dedent_line.
  by rewrite take_indent, drop_indent, lstrip_spaces_spaces.
Qed.

Lemma lstrip_indent (k : nat) (x : string) :
  PyText.lstrip (indent k x) = PyText.lstrip x.
Proof.
  unfold indent. induction k as [|k IH]; [done|].
  simpl. change (String " " (spaces k) +:+ x)
    with (String " " (spaces k +:+ x)). simpl. apply IH.
Qed.

Lemma indent_width_indent (k : nat) (x : string) :
  PyText.lstrip x = x → indent_width (indent k x) = k.
Proof.
  intros Hx. unfold indent_width. rewrite lstrip_indent, Hx.
  unfold indent. rewrite string_app_length, spaces_length. lia.
Qed.

Lemma split_newline_head (s : string) :
  ∃ first rest, PyStr.split PyText.newline s = first :: rest.
Proof.
  assert (H := split_from_nonempty PyText.newline 0 s).
  fold (PyStr.split PyText.newline s) in H.
  destruct (PyStr.split PyText.newline s) as [|first rest]; [done|]. eauto.
Qed.

(** The lines of the formatted text are the dedented lines of the text. *)
Lemma formatting_split (s : string) :
  PyStr.split PyText.newline (formatting s)
  = dedent_line
      (indent_width (default "" (head (PyStr.split PyText.newline s))))
    <$> PyStr.split PyText.newline s.
Proof.
  unfold formatting. destruct (split_newline_head s) as (first & rest & E).
  apply (split_join_char "010").
  - by rewrite E.
  - intros seg (i & -> & Hi)%list_elem_of_fmap.
    apply dedent_line_no_newline.
    by apply (split_char_clean "010" s).
Qed.

(** A text whose first line starts with no whitespace is left as it is. *)
Lemma formatting_fixed (s : string) (first : string) (rest : list string) :
  PyStr.split PyText.newline s = first :: rest →
  PyText.lstrip first = first → formatting s = s.
Proof.
  intros E Hfirst. unfold formatting. rewrite E. cbn [head default].
  assert (Hw : indent_width first = 0)
    by (unfold indent_width; rewrite Hfirst; lia).
  change (id first) with first. rewrite Hw.
  rewrite (list_fmap_ext (dedent_line 0) id (first :: rest))
    by (intros; apply dedent_line_zero).
  rewrite list_fmap_id, <-E. apply (join_split_char "010").
Qed.

End Formatting.

(** X18.  [pretty_format] keeps the lines of the text and takes nothing
    from a line but leading spaces: the formatted text has as many lines as
    the text, and every line of the text is the corresponding line of the
    formatted text after some spaces, no more of them than the first line
    has leading whitespace. *)
Theorem formatting_keeps_lines (s : string) :
  Forall2
    (λ i o, ∃ k,
       k ≤ indent_width (default "" (head (PyStr.split PyText.newline s))) ∧
       i = spaces k +:+ o)
    (PyStr.split PyText.newline s)
    (PyStr.split PyText.newline (formatting s)).
Proof.
  rewrite formatting_split. apply Forall2_fmap_r, Forall_Forall2_diag.
  apply Forall_forall. intros i _. apply dedent_line_split.
Qed.

(** X19.  A text whose first line starts with no whitespace comes out of
    [pretty_format] unchanged. *)
Theorem formatting_unindented (s first : string) (rest : list string) :
  PyStr.split PyText.newline s = first :: rest →
  PyText.lstrip first = first → formatting s = s.
Proof. apply formatting_fixed. Qed.

Lemma formatting_unindented_witness :
  formatting (String "a" (String "010" "  b")) = String "a" (String "010" "  b").
Proof.
  apply (formatting_unindented _ "a" ["  b"]); reflexivity.
Defined.

(** X20.  [pretty_format] undoes an indentation by spaces: when lines
    that hold no line break, the first of which starts with no whitespace,
    are each indented by the same number of spaces and joined by line
    breaks, the formatted text is the join of the lines as they were. *)
Theorem formatting_undoes_indent (k : nat) (first : string)
  (rest : list string) :
  PyText.lstrip first = first →
  (∀ x, x ∈ first :: rest → PyStr.contains PyText.newline x = false) →
  formatting (PyText.join PyText.newline (indent k <$> first :: rest))
  = PyText.join PyText.newline (first :: rest).
Proof.
  intros Hfirst Hclean. unfold formatting.
  rewrite (split_join_char "010" (indent k <$> first :: rest)).
  - assert (Hw : indent_width
                   (default "" (head (indent k <$> first :: rest))) = k)
      by exact (indent_width_indent k first Hfirst).
    rewrite Hw, <-list_fmap_compose.
    rewrite (list_fmap_ext (dedent_line k ∘ indent k) id (first :: rest))
      by (intros; apply dedent_indent).
    by rewrite list_fmap_id.
  - done.
  - intros seg (x & -> & Hx)%list_elem_of_fmap. unfold indent.
    change PyText.newline with (String "010" "").
    rewrite (contains_char_app "010").
    change (String "010" "") with PyText.newline.
    by rewrite spaces_no_newline, (Hclean x Hx).
Qed.

Lemma formatting_undoes_indent_witness :
  formatting (PyText.join PyText.newline
                (indent 8 <$> ["process B {"; "    output:"; "}"; ""]))
  = PyText.join PyText.newline ["process B {"; "    output:"; "}"; ""].
Proof.
  apply (formatting_undoes_indent 8 "process B {" ["    output:"; "}"; ""]).
  - reflexivity.
  - intros x Hx.
    repeat (apply elem_of_cons in Hx as [->|Hx]; [reflexivity|]).
    by apply elem_of_nil in Hx.
Defined.
